(** * CH-form stabilizer states: a shallow embedding of [chstate.py]

    The Python class [CHState] is a dataclass holding three N-by-N [uint8]
    matrices, three length-N [uint8] vectors and a complex phase.  The
    embedding follows the source function by function:

    - [Np] models the part of NumPy the class calls: arrays are a shape
      together with a flat buffer in row-major order, [uint8] entries are
      integers with the wrap-around modulo 256 written out, and calls that
      can raise return a [result];
    - [CHState] holds the record and its methods, with the names of the
      source. *)

From Stdlib Require Import ZArith Lia QArith Qcanon.
From Stdlib Require Import Strings.String Strings.Ascii Numbers.DecimalString.
From stdpp Require Import base tactics option list numbers.

Local Open Scope Z_scope.

(** ** Exceptions *)

(** The three Python exceptions the modelled code can raise. *)
Inductive exn : Set :=
| ValueError          (* bad shape: broadcasting, reshape, negative size *)
| IndexError          (* index or boolean mask out of bounds *)
| ZeroDivisionError.  (* complex division by zero *)

Inductive result (T : Type) : Type :=
| Ok (x : T)
| Raise (e : exn).
Arguments Ok {T} x.
Arguments Raise {T} e.

#[global] Instance result_ret : MRet result := fun _ x => Ok x.
#[global] Instance result_bind : MBind result := fun _ _ f m =>
  match m with
  | Ok x => f x
  | Raise e => Raise e
  end.

(** ** Complex numbers

    Python's [complex] is a pair of doubles.  Rounding is not part of this
    development: the phase is a pair of rationals and its product and quotient
    are exact, where the code rounds them.  No property below is drawn from
    that exactness: of the phase, the properties use the test for a zero
    divisor, the symmetry of the product, and that a phase is copied
    unchanged. *)
Record complex : Set := Complex { re : Qc; im : Qc }.

Definition c_one : complex := Complex 1%Qc 0%Qc.

Definition c_is_zero (z : complex) : bool :=
  bool_decide (re z = 0%Qc) && bool_decide (im z = 0%Qc).

Definition c_mul (x y : complex) : complex :=
  Complex (re x * re y - im x * im y)%Qc (re x * im y + im x * re y)%Qc.

Definition c_norm2 (z : complex) : Qc := (re z * re z + im z * im z)%Qc.

(** [x / y] raises [ZeroDivisionError] when [y == 0]. *)
Definition c_div (x y : complex) : result complex :=
  if c_is_zero y then Raise ZeroDivisionError
  else Ok (Complex ((re x * re y + im x * im y) / c_norm2 y)%Qc
                   ((im x * re y - re x * im y) / c_norm2 y)%Qc).

(** ** The NumPy fragment *)
Module Np.

(** A two-dimensional array: its shape and its buffer in C order. *)
Record ndarray2 (T : Type) : Type :=
  Array2 { rows : nat; cols : nat; data : list T }.
Arguments Array2 {T} rows cols data.
Arguments rows {T} _.
Arguments cols {T} _.
Arguments data {T} _.

(** The buffer of the [r]-by-[c] array whose entry [(i, j)] is [f i j]. *)
Definition tabulate {T} (r c : nat) (f : nat -> nat -> T) : list T :=
  flat_map (fun i => map (f i) (seq 0 c)) (seq 0 r).

(** Entry [(i, j)], for in-range indices. *)
Definition get {T} (a : ndarray2 T) (i j : nat) : option T :=
  if decide (i < rows a /\ j < cols a)%nat then data a !! (i * cols a + j)%nat
  else None.

(** Row [i], and the rows in order, as iterating over the array gives them. *)
Definition row {T} (a : ndarray2 T) (i : nat) : list T :=
  take (cols a) (drop (i * cols a) (data a)).
Definition iter_rows {T} (a : ndarray2 T) : list (list T) :=
  map (row a) (seq 0 (rows a)).

(** *** [uint8] scalars *)
Definition uint8 (z : Z) : Z := z mod 256.
Definition sub_u8 (x y : Z) : Z := uint8 (x - y).
Definition add_u8 (x y : Z) : Z := uint8 (x + y).
(** [x % m] on unsigned entries; NumPy gives 0 for a zero divisor. *)
Definition rem_u8 (m x : Z) : Z := if m =? 0 then 0 else x mod m.

(** *** Creation *)

(** [np.zeros(n, dtype=np.uint8)]; a negative size is a [ValueError]. *)
Definition zeros (n : Z) : result (list Z) :=
  if n <? 0 then Raise ValueError else Ok (replicate (Z.to_nat n) 0).

(** [np.zeros((n, m), dtype=np.uint8)]. *)
Definition zeros2 (n m : Z) : result (ndarray2 Z) :=
  if (n <? 0) || (m <? 0) then Raise ValueError
  else Ok (Array2 (Z.to_nat n) (Z.to_nat m)
                  (tabulate (Z.to_nat n) (Z.to_nat m) (fun _ _ => 0))).

(** [np.eye(n, dtype=np.uint8)]. *)
Definition eye (n : Z) : result (ndarray2 Z) :=
  if n <? 0 then Raise ValueError
  else Ok (Array2 (Z.to_nat n) (Z.to_nat n)
                  (tabulate (Z.to_nat n) (Z.to_nat n)
                            (fun i j => if decide (i = j) then 1 else 0))).

(** [np.ones(n, dtype=bool)]. *)
Definition ones_bool (n : Z) : result (list bool) :=
  if n <? 0 then Raise ValueError else Ok (replicate (Z.to_nat n) true).

(** [np.array(s, dtype=np.uint8)] on a sequence of Python integers: every
    entry is stored in eight bits. *)
Definition array_u8 (s : list Z) : list Z := map uint8 s.

(** *** Indexing *)

(** [s[:n]] with Python's treatment of a negative bound. *)
Definition slice_to {T} (s : list T) (n : Z) : list T :=
  let len := Z.of_nat (length s) in
  take (Z.to_nat (if n <? 0 then Z.max 0 (n + len) else n)) s.

(** [np.concatenate((x, y))] on one-dimensional arrays. *)
Definition concatenate {T} (x y : list T) : list T := x ++ y.

(** An integer index into an axis of length [len]: negative indices count
    from the end, anything else out of range is an [IndexError]. *)
Definition norm_index (len : nat) (k : Z) : result nat :=
  if (0 <=? k) && (k <? Z.of_nat len) then Ok (Z.to_nat k)
  else if (- Z.of_nat len <=? k) && (k <? 0) then Ok (Z.to_nat (k + Z.of_nat len))
  else Raise IndexError.

(** [x[k] = a] on a one-dimensional array. *)
Definition setitem {T} (x : list T) (k : Z) (a : T) : result (list T) :=
  i ← norm_index (length x) k; Ok (<[i:=a]> x).

(** The entries of [x] at the positions where [mask] holds, in order. *)
Fixpoint select {T} (mask : list bool) (x : list T) : list T :=
  match mask, x with
  | b :: mask', a :: x' => if b then a :: select mask' x' else select mask' x'
  | _, _ => []
  end.

(** [x[mask]] for a one-dimensional boolean mask: the lengths must agree. *)
Definition getitem_mask {T} (x : list T) (mask : list bool) : result (list T) :=
  if decide (length mask = length x) then Ok (select mask x)
  else Raise IndexError.

(** [a[mask2d]] for a two-dimensional boolean mask: the shapes must agree;
    the selected entries come out as a one-dimensional array, in C order. *)
Definition getitem_mask2 {T} (a : ndarray2 T) (mask : ndarray2 bool)
  : result (list T) :=
  if decide (rows mask = rows a /\ cols mask = cols a)
  then Ok (select (data mask) (data a))
  else Raise IndexError.

(** [np.outer(x, y)] on boolean vectors: the product of booleans is their
    conjunction. *)
Definition outer (x y : list bool) : ndarray2 bool :=
  Array2 (length x) (length y)
         (tabulate (length x) (length y)
                   (fun i j => (x !!! i) && (y !!! j))).

(** [x.reshape(r, c)] on a one-dimensional array.  One dimension may be
    [-1], which NumPy infers from the size. *)
Definition reshape {T} (x : list T) (r c : Z) : result (ndarray2 T) :=
  let size := Z.of_nat (length x) in
  if (r =? -1) && (c =? -1) then Raise ValueError
  else if r =? -1 then
    if (0 <? c) && (size mod c =? 0)
    then Ok (Array2 (Z.to_nat (size / c)) (Z.to_nat c) x)
    else Raise ValueError
  else if c =? -1 then
    if (0 <? r) && (size mod r =? 0)
    then Ok (Array2 (Z.to_nat r) (Z.to_nat (size / r)) x)
    else Raise ValueError
  else if (r <? 0) || (c <? 0) then Raise ValueError
  else if r * c =? size then Ok (Array2 (Z.to_nat r) (Z.to_nat c) x)
  else Raise ValueError.

(** *** Element-wise arithmetic with broadcasting *)

(** The common length of two axes: equal lengths, or one of them is 1. *)
Definition bdim (n m : nat) : result nat :=
  if decide (n = m) then Ok n
  else if decide (n = 1%nat) then Ok m
  else if decide (m = 1%nat) then Ok n
  else Raise ValueError.

(** The position read on an axis of length [dim] for the output position
    [i] of a broadcast axis of length [out]: a stretched axis is read at
    0 throughout. *)
Definition bidx (dim out i : nat) : nat :=
  if decide (dim = out) then i else 0%nat.

Definition binop (f : Z -> Z -> Z) (x y : list Z) : result (list Z) :=
  n ← bdim (length x) (length y);
  Ok (map (fun i => f (x !!! bidx (length x) n i) (y !!! bidx (length y) n i))
          (seq 0 n)).

Definition binop2 (f : Z -> Z -> Z) (a b : ndarray2 Z) : result (ndarray2 Z) :=
  r ← bdim (rows a) (rows b);
  c ← bdim (cols a) (cols b);
  Ok (Array2 r c
        (tabulate r c (fun i j =>
           f (data a !!! (bidx (rows a) r i * cols a + bidx (cols a) c j)%nat)
             (data b !!! (bidx (rows b) r i * cols b + bidx (cols b) c j)%nat)))).

(** [a % np.uint8(m)]. *)
Definition rem (m : Z) (x : list Z) : list Z := map (rem_u8 m) x.
Definition rem2 (m : Z) (a : ndarray2 Z) : ndarray2 Z :=
  Array2 (rows a) (cols a) (map (rem_u8 m) (data a)).

End Np.

(** ** Decimal rendering and string helpers *)

(** [str(n)] for a Python integer (and for a [uint8] scalar). *)
Definition str_int (n : Z) : string := NilZero.string_of_int (Z.to_int n).

(** [c * n] for a one-character string: empty when [n <= 0]. *)
Fixpoint str_repeat (c : ascii) (n : nat) : string :=
  match n with
  | O => EmptyString
  | S n' => String c (str_repeat c n')
  end.

Definition spaces (n : Z) : string := str_repeat " "%char (Z.to_nat n).

Definition newline : ascii := "010"%char.

(** The text before the first line break. *)
Fixpoint first_line (s : string) : string :=
  match s with
  | EmptyString => EmptyString
  | String c s' => if Ascii.eqb c newline then EmptyString else String c (first_line s')
  end.

(** ** The class [CHState] *)
Module CHState.

(** The dataclass: the constructor stores its arguments as they are. *)
Record t : Type := mk {
  N : Z;                  (* number of qubits *)
  A : Np.ndarray2 Z;      (* NxN matrix of bytes used as bits *)
  B : Np.ndarray2 Z;
  C : Np.ndarray2 Z;
  g : list Z;             (* gamma, in (Z/4)^N *)
  v : list Z;             (* N bytes used as bits *)
  s : list Z;             (* N bytes used as bits: the initial state *)
  phase : complex         (* initial phase *)
}.

(** *** [basis] *)

(** The branch [N == None and not s is None], which the last branch calls
    back into. *)
Definition basis_of_bits (bits : list Z) : result t :=
  let n := Z.of_nat (length bits) in
  let bits := Np.array_u8 bits in
  a ← Np.eye n;
  b ← Np.eye n;
  c ← Np.zeros2 n n;
  g0 ← Np.zeros n;
  v0 ← Np.zeros n;
  Ok (mk n a b c g0 v0 bits c_one).

Definition basis (n : option Z) (bits : option (list Z)) : result t :=
  match n, bits with
  | None, None =>
      a ← Np.eye 1;
      b ← Np.eye 1;
      c ← Np.zeros2 1 1;
      g0 ← Np.zeros 1;
      v0 ← Np.zeros 1;
      s0 ← Np.zeros 1;
      Ok (mk 1 a b c g0 v0 s0 c_one)
  | Some n, None =>
      a ← Np.eye n;
      b ← Np.eye n;
      c ← Np.zeros2 n n;
      g0 ← Np.zeros n;
      v0 ← Np.zeros n;
      s0 ← Np.zeros n;
      Ok (mk n a b c g0 v0 s0 c_one)
  | None, Some bits => basis_of_bits bits
  | Some n, Some bits =>
      let bits := Np.array_u8 bits in
      if n <=? Z.of_nat (length bits)
      then basis_of_bits (Np.slice_to bits n)
      else
        pad ← Np.zeros (n - Z.of_nat (length bits));
        basis_of_bits (Np.concatenate bits pad)
  end.

(** *** Properties and their setters

    The instance has one slot per field; [F], [G], [M], [gamma] and [w]
    read and write the slots [A], [B], [C], [g] and [phase].  A write is a
    new state of the instance. *)
Definition F (self : t) := A self.
Definition G (self : t) := B self.
Definition M (self : t) := C self.
Definition gamma (self : t) := g self.
Definition w (self : t) := phase self.

(** Attribute assignment [self.A = mat], and likewise for the other slots. *)
Definition set_A (mat : Np.ndarray2 Z) (self : t) : t :=
  mk (N self) mat (B self) (C self) (g self) (v self) (s self) (phase self).
Definition set_B (mat : Np.ndarray2 Z) (self : t) : t :=
  mk (N self) (A self) mat (C self) (g self) (v self) (s self) (phase self).
Definition set_C (mat : Np.ndarray2 Z) (self : t) : t :=
  mk (N self) (A self) (B self) mat (g self) (v self) (s self) (phase self).
Definition set_g (vec : list Z) (self : t) : t :=
  mk (N self) (A self) (B self) (C self) vec (v self) (s self) (phase self).
Definition set_phase (c : complex) (self : t) : t :=
  mk (N self) (A self) (B self) (C self) (g self) (v self) (s self) c.

(** The property setters. *)
Definition set_F (mat : Np.ndarray2 Z) (self : t) : t := set_A mat self.
Definition set_G (mat : Np.ndarray2 Z) (self : t) : t := set_B mat self.
Definition set_M (mat : Np.ndarray2 Z) (self : t) : t := set_C mat self.
Definition set_gamma (vec : list Z) (self : t) : t := set_g vec self.
Definition set_w (c : complex) (self : t) : t := set_phase c self.

(** *** [delete_qubit] *)
Definition delete_qubit (self : t) (k : Z) : result t :=
  mask ← Np.ones_bool (N self);
  mask ← Np.setitem mask k false;
  let mask2d := Np.outer mask mask in
  a ← Np.getitem_mask2 (A self) mask2d;
  a ← Np.reshape a (N self - 1) (N self - 1);
  b ← Np.getitem_mask2 (B self) mask2d;
  b ← Np.reshape b (N self - 1) (N self - 1);
  c ← Np.getitem_mask2 (C self) mask2d;
  c ← Np.reshape c (N self - 1) (N self - 1);
  g' ← Np.getitem_mask (g self) mask;
  v' ← Np.getitem_mask (v self) mask;
  s' ← Np.getitem_mask (s self) mask;
  Ok (mk (N self - 1) a b c g' v' s' (phase self)).

(** *** [__sub__] and [__add__]

    The arguments of the constructor are evaluated from left to right, so
    the first array operation that cannot broadcast raises before the
    phases are combined. *)
Definition sub (self other : t) : result t :=
  a ← Np.binop2 Np.sub_u8 (A self) (A other); let a := Np.rem2 2 a in
  b ← Np.binop2 Np.sub_u8 (B self) (B other); let b := Np.rem2 2 b in
  c ← Np.binop2 Np.sub_u8 (C self) (C other); let c := Np.rem2 2 c in
  g' ← Np.binop Np.sub_u8 (g self) (g other); let g' := Np.rem 4 g' in
  v' ← Np.binop Np.sub_u8 (v self) (v other); let v' := Np.rem 2 v' in
  s' ← Np.binop Np.sub_u8 (s self) (s other); let s' := Np.rem 2 s' in
  p ← c_div (phase self) (phase other);
  Ok (mk (N self) a b c g' v' s' p).

Definition add (self other : t) : result t :=
  a ← Np.binop2 Np.add_u8 (A self) (A other); let a := Np.rem2 2 a in
  b ← Np.binop2 Np.add_u8 (B self) (B other); let b := Np.rem2 2 b in
  c ← Np.binop2 Np.add_u8 (C self) (C other); let c := Np.rem2 2 c in
  g' ← Np.binop Np.add_u8 (g self) (g other); let g' := Np.rem 4 g' in
  v' ← Np.binop Np.add_u8 (v self) (v other); let v' := Np.rem 2 v' in
  s' ← Np.binop Np.add_u8 (s self) (s other); let s' := Np.rem 2 s' in
  Ok (mk (N self) a b c g' v' s' (c_mul (phase self) (phase other))).

(** *** [tab]

    [str] of a complex number prints floating-point digits; the rendering
    of the phase is a parameter of the section. *)
Section Rendering.
Variable str_complex : complex -> string.

Definition _rowToStr (row : list Z) : string :=
  String.concat "" (map str_int row).

(** One round of the loop over
    [enumerate(zip(self.F, self.G, self.M, self.g, self.v, self.s))]. *)
Definition tab_step (self : t) (qubitNumberStrLen : Z) (acc : string)
    (item : nat * (list Z * (list Z * (list Z * (Z * (Z * Z))))))
  : string :=
  let '(i, (Fr, (Gr, (Mr, (gr, (vr, sr)))))) := item in
  let acc := if decide (i <> 0%nat)
             then (acc ++ spaces qubitNumberStrLen)%string else acc in
  let acc := (acc ++ _rowToStr Fr ++ " " ++ _rowToStr Gr ++ " "
                  ++ _rowToStr Mr ++ " " ++ str_int gr ++ " "
                  ++ str_int vr ++ " " ++ str_int sr)%string in
  let acc := if decide (i = 0%nat)
             then (acc ++ " " ++ str_complex (phase self))%string else acc in
  (acc ++ String newline "")%string.

Definition tab (self : t) : string :=
  let s0 := (str_int (N self) ++ " ")%string in
  let qubitNumberStrLen := Z.of_nat (String.length s0) in
  let matrix_width := N self in
  let half_matrix_width := N self / 2 in
  let s0 := ("N" ++ spaces (qubitNumberStrLen - 1 + half_matrix_width)
              ++ "F" ++ spaces matrix_width
              ++ "G" ++ spaces matrix_width
              ++ "M" ++ spaces (matrix_width - half_matrix_width)
              ++ "g v s w" ++ String newline "" ++ s0)%string in
  let zipped :=
    zip (Np.iter_rows (F self))
      (zip (Np.iter_rows (G self))
         (zip (Np.iter_rows (M self))
            (zip (g self) (zip (v self) (s self))))) in
  foldl (tab_step self qubitNumberStrLen) s0
        (zip (seq 0 (length zipped)) zipped).
(** *** [__str__]

    The text of one row: the three matrix rows and the three scalars,
    separated by single blanks. *)
Definition row_text (Fr Gr Mr : list Z) (gr vr sr : Z) : string :=
  (_rowToStr Fr ++ " " ++ _rowToStr Gr ++ " "
     ++ _rowToStr Mr ++ " " ++ str_int gr ++ " "
     ++ str_int vr ++ " " ++ str_int sr)%string.

(** What [zip(self.F, self.G, self.M, self.g, self.v, self.s)] yields. *)
Definition zipped_rows (self : t)
  : list (list Z * (list Z * (list Z * (Z * (Z * Z))))) :=
  zip (Np.iter_rows (F self))
    (zip (Np.iter_rows (G self))
       (zip (Np.iter_rows (M self))
          (zip (g self) (zip (v self) (s self))))).

(** One round of the loop of [__str__].  The loop carries the text [s] and
    [qubitNumberStrLen], which is [None] until round 0 sets it; a string
    times [None] is a [TypeError], and the round then has no result. *)
Definition str_step (self : t) (state : string * option Z)
    (item : nat * (list Z * (list Z * (list Z * (Z * (Z * Z))))))
  : option (string * option Z) :=
  let '(acc, qubitNumberStrLen) := state in
  let '(i, (Fr, (Gr, (Mr, (gr, (vr, sr)))))) := item in
  let '(acc, qubitNumberStrLen) :=
    if decide (i = 0%nat)
    then let s0 := (str_int (N self) ++ " ")%string in
         (s0, Some (Z.of_nat (String.length s0)))
    else (acc, qubitNumberStrLen) in
  acc ← (if decide (i <> 0%nat)
         then match qubitNumberStrLen with
              | Some q => Some (acc ++ spaces q)%string
              | None => None
              end
         else Some acc);
  let acc := (acc ++ row_text Fr Gr Mr gr vr sr)%string in
  let acc := if decide (i = 0%nat)
             then (acc ++ " " ++ str_complex (phase self))%string else acc in
  Some ((acc ++ String newline "")%string, qubitNumberStrLen).

Definition __str__ (self : t) : option string :=
  let zipped := zipped_rows self in
  fst <$> foldl (fun state item => state ≫= fun st => str_step self st item)
                (Some (EmptyString, None))
                (zip (seq 0 (length zipped)) zipped).
End Rendering.

End CHState.

(** ** Vocabulary of the specification *)

Definition is_bit (z : Z) : Prop := z = 0 \/ z = 1.
Definition is_mod4 (z : Z) : Prop := 0 <= z < 4.

(** An [n]-by-[n] array with a buffer of the right size. *)
Definition square (n : nat) (a : Np.ndarray2 Z) : Prop :=
  Np.rows a = n /\ Np.cols a = n /\ length (Np.data a) = (n * n)%nat.

Definition is_identity (n : nat) (a : Np.ndarray2 Z) : Prop :=
  square n a /\
  forall i j, (i < n)%nat -> (j < n)%nat ->
    Np.get a i j = Some (if decide (i = j) then 1 else 0).

Definition is_zero_matrix (n : nat) (a : Np.ndarray2 Z) : Prop :=
  square n a /\
  forall i j, (i < n)%nat -> (j < n)%nat -> Np.get a i j = Some 0.

(** The shape invariant of an instance with [n] qubits. *)
Record wf (n : nat) (st : CHState.t) : Prop := Wf {
  wf_N : CHState.N st = Z.of_nat n;
  wf_A : square n (CHState.A st);
  wf_B : square n (CHState.B st);
  wf_C : square n (CHState.C st);
  wf_g : length (CHState.g st) = n;
  wf_v : length (CHState.v st) = n;
  wf_s : length (CHState.s st) = n
}.

(** The arrays of an instance all have the shape of [k] qubits, whatever
    its field [N] says. *)
Record shaped (k : nat) (st : CHState.t) : Prop := Shaped {
  sh_A : square k (CHState.A st);
  sh_B : square k (CHState.B st);
  sh_C : square k (CHState.C st);
  sh_g : length (CHState.g st) = k;
  sh_v : length (CHState.v st) = k;
  sh_s : length (CHState.s st) = k
}.

(** The canonical configuration of a basis state on [n] qubits with
    bitstring [bits]. *)
Record canonical (n : nat) (bits : list Z) (st : CHState.t) : Prop := Canonical {
  can_N : CHState.N st = Z.of_nat n;
  can_F : is_identity n (CHState.F st);
  can_G : is_identity n (CHState.G st);
  can_M : is_zero_matrix n (CHState.M st);
  can_gamma : CHState.gamma st = replicate n 0;
  can_v : CHState.v st = replicate n 0;
  can_s : CHState.s st = bits;
  can_phase : CHState.phase st = Complex 1%Qc 0%Qc
}.

(** [s] truncated to its first [n] entries, or padded with zeros on the
    right up to length [n]. *)
Definition truncate_or_pad (n : Z) (bits : list Z) : list Z :=
  if decide (n <= Z.of_nat (length bits))
  then take (Z.to_nat n) bits
  else bits ++ replicate (Z.to_nat n - length bits) 0.

(** A vector with its entry [k] removed. *)
Definition remove_entry {T} (k : nat) (x : list T) : list T :=
  take k x ++ drop (S k) x.

(** The position in the original of position [i] of what is left once
    position [k] is removed: the order of the others is kept. *)
Definition bump (k i : nat) : nat := if decide (i < k)%nat then i else S i.

(** [a'] is the [n]-by-[n] array [a] with row [k] and column [k] removed:
    entry [(i, j)] of [a'] is the entry of [a] at the positions that [i] and
    [j] had before the removal. *)
Definition minor (n k : nat) (a a' : Np.ndarray2 Z) : Prop :=
  square (n - 1) a' /\
  forall i j, (i < n - 1)%nat -> (j < n - 1)%nat ->
    exists z, Np.get a' i j = Some z /\ Np.get a (bump k i) (bump k j) = Some z.

(** The size NumPy broadcasts two unequal sizes to when one of them is 1. *)
Definition broadcast_size (n m : nat) : nat :=
  if decide (n = 1%nat) then m else n.

(** Entrywise difference and sum modulo [m], as the specification words
    them: on the integers, without the eight-bit intermediate. *)
Definition sub_mod (m x y : Z) : Z := (x - y) mod m.
Definition add_mod (m x y : Z) : Z := (x + y) mod m.

(** Every entry of the bit fields is 0 or 1 and every entry of gamma is in
    0..3. *)
Record reduced (st : CHState.t) : Prop := Reduced {
  red_F : Forall is_bit (Np.data (CHState.F st));
  red_G : Forall is_bit (Np.data (CHState.G st));
  red_M : Forall is_bit (Np.data (CHState.M st));
  red_gamma : Forall is_mod4 (CHState.gamma st);
  red_v : Forall is_bit (CHState.v st);
  red_s : Forall is_bit (CHState.s st)
}.

(** A header row: the labels with the given numbers of blank columns after
    "N", "F", "G" and "M". *)
Definition header_row (after_N after_F after_G after_M : Z) : string :=
  ("N" ++ spaces after_N ++ "F" ++ spaces after_F ++ "G" ++ spaces after_G
       ++ "M" ++ spaces after_M ++ "g v s w")%string.

(** [len(str(n))]. *)
Definition str_len (n : Z) : Z := Z.of_nat (String.length (str_int n)).

(** The rows of a rendering after the first: each is [width] blanks, its
    text and a line break. *)
Fixpoint later_rows (width : nat) (texts : list string) : string :=
  match texts with
  | [] => EmptyString
  | t :: ts =>
      (str_repeat " " width ++ t ++ String newline (later_rows width ts))%string
  end.

(** A rendering in rows: the first row is [prefix], its text and [suffix];
    the rows after it start with blanks of the width of [prefix]. *)
Definition layout (prefix suffix : string) (texts : list string) : string :=
  match texts with
  | [] => EmptyString
  | t :: ts =>
      (prefix ++ t ++ suffix
         ++ String newline (later_rows (String.length prefix) ts))%string
  end.

(** The text of the row that [zip] yields as [item]. *)
Definition item_text (item : list Z * (list Z * (list Z * (Z * (Z * Z)))))
  : string :=
  let '(Fr, (Gr, (Mr, (gr, (vr, sr))))) := item in
  CHState.row_text Fr Gr Mr gr vr sr.

(** A stored byte. *)
Definition is_byte (z : Z) : Prop := 0 <= z < 256.

(** The character a bit prints as. *)
Definition bit_char (z : Z) : ascii := if z =? 0 then "0"%char else "1"%char.

(** All entries of an array are zero. *)
Definition all_zero (x : list Z) : Prop := Forall (fun z => z = 0) x.

(** Two instances have the same arrays, whatever their phases. *)
Definition same_arrays (X Y : CHState.t) : Prop :=
  CHState.N X = CHState.N Y
  /\ CHState.F X = CHState.F Y /\ CHState.G X = CHState.G Y
  /\ CHState.M X = CHState.M Y /\ CHState.gamma X = CHState.gamma Y
  /\ CHState.v X = CHState.v Y /\ CHState.s X = CHState.s Y.

(** ** Sample instances *)

Definition one_qubit : CHState.t :=
  CHState.mk 1 (Np.Array2 1 1 [1]) (Np.Array2 1 1 [1]) (Np.Array2 1 1 [0])
             [0] [0] [0] c_one.

Definition two_qubits : CHState.t :=
  CHState.mk 2 (Np.Array2 2 2 [1; 0; 0; 1]) (Np.Array2 2 2 [1; 0; 0; 1])
             (Np.Array2 2 2 [0; 0; 0; 0]) [0; 0] [0; 0] [0; 0] c_one.

(** A two-qubit instance with mixed entries, gamma = [3; 2] and
    phase 0 + 1i. *)
Definition sample_x : CHState.t :=
  CHState.mk 2 (Np.Array2 2 2 [1; 1; 0; 1]) (Np.Array2 2 2 [1; 0; 1; 1])
             (Np.Array2 2 2 [0; 1; 1; 0]) [3; 2] [1; 0] [0; 1]
             (Complex 0%Qc 1%Qc).

(** A two-qubit instance whose stored bytes are not reduced, with phase
    3 - 4i. *)
Definition sample_y : CHState.t :=
  CHState.mk 2 (Np.Array2 2 2 [255; 1; 2; 7]) (Np.Array2 2 2 [0; 1; 1; 0])
             (Np.Array2 2 2 [1; 1; 1; 1]) [7; 1] [1; 1] [200; 1]
             (Complex (Q2Qc 3) (Q2Qc (-4))).

(** * Properties *)

(** Closes [Forall P l] on a literal list when [lia] decides [P]. *)
Ltac forall_lia :=
  repeat first [ apply Forall_nil_2
               | apply Forall_cons_2; [unfold is_bit, is_mod4; lia|] ].

(** ** The result monad *)

Lemma bind_Ok {T U} (x : T) (f : T -> result U) : (Ok x ≫= f) = f x.
Proof. reflexivity. Qed.

(** ** Buffers in row-major order *)

Lemma length_tabulate_from {T} (f : nat -> nat -> T) c r start :
  length (flat_map (fun i => map (f i) (seq 0 c)) (seq start r)) = (r * c)%nat.
Proof.
  revert start; induction r as [|r IH]; intros start; simpl; [done|].
  rewrite length_app, length_map, length_seq, IH. done.
Qed.

Lemma length_tabulate {T} (f : nat -> nat -> T) r c :
  length (Np.tabulate r c f) = (r * c)%nat.
Proof. apply length_tabulate_from. Qed.

Lemma lookup_tabulate_from {T} (f : nat -> nat -> T) c r start i j :
  (i < r)%nat -> (j < c)%nat ->
  flat_map (fun i => map (f i) (seq 0 c)) (seq start r) !! (i * c + j)%nat
  = Some (f (start + i)%nat j).
Proof.
  revert start i; induction r as [|r IH]; intros start i Hi Hj; [lia|].
  simpl. destruct i as [|i].
  - rewrite lookup_app_l by (rewrite length_map, length_seq; lia).
    simpl. rewrite list_lookup_fmap, lookup_seq_lt by lia.
    simpl. do 2 f_equal. lia.
  - rewrite lookup_app_r by (rewrite length_map, length_seq; lia).
    rewrite length_map, length_seq.
    replace (S i * c + j - c)%nat with (i * c + j)%nat by lia.
    rewrite IH by lia. do 2 f_equal. lia.
Qed.

Lemma lookup_tabulate {T} (f : nat -> nat -> T) r c i j :
  (i < r)%nat -> (j < c)%nat ->
  Np.tabulate r c f !! (i * c + j)%nat = Some (f i j).
Proof. intros. unfold Np.tabulate. by rewrite lookup_tabulate_from. Qed.

Lemma get_tabulate {T} (f : nat -> nat -> T) r c i j :
  (i < r)%nat -> (j < c)%nat ->
  Np.get (Np.Array2 r c (Np.tabulate r c f)) i j = Some (f i j).
Proof.
  intros. unfold Np.get. simpl.
  rewrite decide_True by done. by apply lookup_tabulate.
Qed.

(** ** Array creation *)

Lemma eye_nat n :
  Np.eye (Z.of_nat n)
  = Ok (Np.Array2 n n (Np.tabulate n n (fun i j => if decide (i = j) then 1 else 0))).
Proof.
  unfold Np.eye. destruct (Z.ltb_spec (Z.of_nat n) 0); [lia|].
  by rewrite Nat2Z.id.
Qed.

Lemma zeros2_nat n :
  Np.zeros2 (Z.of_nat n) (Z.of_nat n)
  = Ok (Np.Array2 n n (Np.tabulate n n (fun _ _ => 0))).
Proof.
  unfold Np.zeros2. destruct (Z.ltb_spec (Z.of_nat n) 0); [lia|].
  by rewrite Nat2Z.id.
Qed.

Lemma zeros_nat n : Np.zeros (Z.of_nat n) = Ok (replicate n 0).
Proof.
  unfold Np.zeros. destruct (Z.ltb_spec (Z.of_nat n) 0); [lia|].
  by rewrite Nat2Z.id.
Qed.

Lemma tabulate_identity n :
  is_identity n
    (Np.Array2 n n (Np.tabulate n n (fun i j => if decide (i = j) then 1 else 0))).
Proof.
  split.
  - repeat split; simpl; auto using length_tabulate.
  - intros i j Hi Hj. by apply get_tabulate.
Qed.

Lemma tabulate_zero n :
  is_zero_matrix n (Np.Array2 n n (Np.tabulate n n (fun _ _ => 0))).
Proof.
  split.
  - repeat split; simpl; auto using length_tabulate.
  - intros i j Hi Hj. by apply get_tabulate.
Qed.

Lemma uint8_bit z : is_bit z -> Np.uint8 z = z.
Proof. by intros [-> | ->]. Qed.

Lemma array_u8_bits bits : Forall is_bit bits -> Np.array_u8 bits = bits.
Proof.
  unfold Np.array_u8. induction 1 as [|z l Hz _ IH]; simpl; [done|].
  by rewrite uint8_bit, IH.
Qed.

Lemma length_array_u8 bits : length (Np.array_u8 bits) = length bits.
Proof. apply length_map. Qed.

(** ** [basis] *)

(** The call with a bitstring only: the size is the length of the
    bitstring, which is stored after conversion to [uint8]. *)
Lemma basis_of_bits_canonical bits :
  exists st, CHState.basis_of_bits bits = Ok st
             /\ canonical (length bits) (Np.array_u8 bits) st.
Proof.
  unfold CHState.basis_of_bits.
  rewrite eye_nat, zeros2_nat, zeros_nat. simpl.
  eexists; split; [reflexivity|].
  split; simpl; auto using tabulate_identity, tabulate_zero.
Qed.

(** The call with a size only gives the all-zero bitstring. *)
Lemma basis_of_size_canonical n :
  exists st, CHState.basis (Some (Z.of_nat n)) None = Ok st
             /\ canonical n (replicate n 0) st.
Proof.
  simpl. rewrite eye_nat, zeros2_nat, zeros_nat. simpl.
  eexists; split; [reflexivity|].
  split; simpl; auto using tabulate_identity, tabulate_zero.
Qed.

(** The call without arguments. *)
Lemma basis_default_canonical :
  exists st, CHState.basis None None = Ok st /\ canonical 1 [0] st.
Proof. apply (basis_of_size_canonical 1). Qed.

(** With both arguments the call is the bitstring-only call on the
    truncated or padded bitstring. *)
Lemma basis_both_unfold n bits :
  CHState.basis (Some n) (Some bits)
  = if decide (n <= Z.of_nat (length bits))
    then CHState.basis None (Some (Np.slice_to (Np.array_u8 bits) n))
    else CHState.basis None
           (Some (Np.array_u8 bits
                    ++ replicate (Z.to_nat (n - Z.of_nat (length bits))) 0)).
Proof.
  simpl. rewrite length_array_u8.
  destruct (Z.leb_spec n (Z.of_nat (length bits))).
  - by rewrite decide_True by lia.
  - rewrite decide_False by lia.
    unfold Np.zeros. destruct (Z.ltb_spec (n - Z.of_nat (length bits)) 0); [lia|].
    reflexivity.
Qed.

Lemma slice_to_nonneg {T} (l : list T) n :
  0 <= n -> Np.slice_to l n = take (Z.to_nat n) l.
Proof.
  intros Hn. unfold Np.slice_to. by destruct (Z.ltb_spec n 0); [lia|].
Qed.

Lemma basis_truncate_or_pad n bits :
  0 <= n -> Forall is_bit bits ->
  CHState.basis (Some n) (Some bits)
  = CHState.basis None (Some (truncate_or_pad n bits)).
Proof.
  intros Hn Hbits. rewrite basis_both_unfold. unfold truncate_or_pad.
  rewrite (array_u8_bits bits Hbits). destruct (decide _).
  - by rewrite slice_to_nonneg.
  - replace (Z.to_nat (n - Z.of_nat (length bits)))
      with (Z.to_nat n - length bits)%nat by lia.
    reflexivity.
Qed.

Lemma is_bit_truncate_or_pad n bits :
  Forall is_bit bits -> Forall is_bit (truncate_or_pad n bits).
Proof.
  intros H. unfold truncate_or_pad. destruct (decide _).
  - by apply Forall_take.
  - apply Forall_app; split; [done|]. apply Forall_replicate. by left.
Qed.

Lemma length_truncate_or_pad n bits :
  0 <= n -> length (truncate_or_pad n bits) = Z.to_nat n.
Proof.
  intros H. unfold truncate_or_pad. destruct (decide _).
  - rewrite length_take. lia.
  - rewrite length_app, length_replicate. lia.
Qed.

(** C1: for every N >= 1 and every 0/1 bitstring of length N, the factory
    (called with the bitstring, with or without N) returns an instance with
    F = G = identity, M = 0, gamma = v = 0, phase = 1 and s the requested
    bitstring; called with N alone it returns that configuration for the
    all-zero bitstring of length N; called without arguments it returns it
    for N = 1 and s = [0]. *)
Theorem basis_canonical (n : Z) (bits : list Z) :
  1 <= n -> Z.of_nat (length bits) = n -> Forall is_bit bits ->
  (exists st, CHState.basis (Some n) (Some bits) = Ok st
              /\ canonical (Z.to_nat n) bits st)
  /\ (exists st, CHState.basis None (Some bits) = Ok st
                 /\ canonical (Z.to_nat n) bits st)
  /\ (exists st, CHState.basis (Some n) None = Ok st
                 /\ canonical (Z.to_nat n) (replicate (Z.to_nat n) 0) st)
  /\ (exists st, CHState.basis None None = Ok st /\ canonical 1 [0] st).
Proof.
  intros Hn Hlen Hbits.
  assert (Hof : exists st, CHState.basis None (Some bits) = Ok st
                           /\ canonical (Z.to_nat n) bits st).
  { destruct (basis_of_bits_canonical bits) as (st & Hst & Hcan).
    exists st; split; [done|].
    rewrite (array_u8_bits bits Hbits) in Hcan.
    by replace (Z.to_nat n) with (length bits) by lia. }
  assert (Hsize : exists st, CHState.basis (Some n) None = Ok st
                    /\ canonical (Z.to_nat n) (replicate (Z.to_nat n) 0) st).
  { destruct (basis_of_size_canonical (Z.to_nat n)) as (st & Hst & Hcan).
    rewrite Z2Nat.id in Hst by lia. by exists st. }
  split; [|split; [done | split; [done | apply basis_default_canonical]]].
  rewrite basis_truncate_or_pad by (done || lia).
  unfold truncate_or_pad. rewrite decide_True by lia.
  rewrite firstn_all2 by lia. done.
Qed.

Lemma basis_canonical_witness :
  (exists st, CHState.basis (Some 3) (Some [1; 0; 1]) = Ok st
              /\ canonical 3 [1; 0; 1] st)
  /\ (exists st, CHState.basis None (Some [1; 0; 1]) = Ok st
                 /\ canonical 3 [1; 0; 1] st)
  /\ (exists st, CHState.basis (Some 3) None = Ok st
                 /\ canonical 3 [0; 0; 0] st)
  /\ (exists st, CHState.basis None None = Ok st /\ canonical 1 [0] st).
Proof.
  apply (basis_canonical 3 [1; 0; 1]).
  - lia.
  - reflexivity.
  - forall_lia.
Defined.

(** C2: for every N >= 1 and every bitstring s of any length, basis(N, s)
    is basis(None, s') with s' the first N entries of s when N <= len(s) and
    s padded with zeros up to length N otherwise; the call returns an
    instance of size N and raises nothing. *)
Theorem basis_normalises (n : Z) (bits : list Z) :
  1 <= n -> Forall is_bit bits ->
  CHState.basis (Some n) (Some bits)
  = CHState.basis None (Some (truncate_or_pad n bits))
  /\ exists st, CHState.basis (Some n) (Some bits) = Ok st
                /\ canonical (Z.to_nat n) (truncate_or_pad n bits) st.
Proof.
  intros Hn Hbits. split; [apply basis_truncate_or_pad; (done || lia)|].
  rewrite basis_truncate_or_pad by (done || lia).
  destruct (basis_of_bits_canonical (truncate_or_pad n bits)) as (st & Hst & Hcan).
  exists st; split; [done|].
  rewrite array_u8_bits in Hcan by by apply is_bit_truncate_or_pad.
  by rewrite length_truncate_or_pad in Hcan by lia.
Qed.

Lemma basis_normalises_witness :
  CHState.basis (Some 2) (Some [1; 1; 1]) = CHState.basis None (Some [1; 1])
  /\ CHState.basis (Some 4) (Some [1; 0]) = CHState.basis None (Some [1; 0; 0; 0]).
Proof.
  split.
  - apply (basis_normalises 2 [1; 1; 1]); [lia | forall_lia].
  - apply (basis_normalises 4 [1; 0]); [lia | forall_lia].
Defined.

(** C10: [basis(N=0)] takes the size-only branch: the instance has N = 0,
    empty matrices and vectors and phase 1; it is not the single-qubit
    default. *)
Theorem basis_zero_qubits :
  CHState.basis (Some 0) None
  = Ok (CHState.mk 0 (Np.Array2 0 0 []) (Np.Array2 0 0 []) (Np.Array2 0 0 [])
                   [] [] [] (Complex 1%Qc 0%Qc))
  /\ CHState.basis (Some 0) None <> CHState.basis None None.
Proof. split; [reflexivity | discriminate]. Qed.

(** ** Properties and attribute slots *)

(** C8: for each pair F/A, G/B, M/C, gamma/g, w/phase, a value written
    through one name is the value read through the other, and both names
    write the same slot of the instance. *)
Theorem alias_transparency
    (st : CHState.t) (mat : Np.ndarray2 Z) (vec : list Z) (c : complex) :
  (CHState.A (CHState.set_F mat st) = mat
   /\ CHState.F (CHState.set_A mat st) = mat
   /\ CHState.set_F mat st = CHState.set_A mat st)
  /\ (CHState.B (CHState.set_G mat st) = mat
      /\ CHState.G (CHState.set_B mat st) = mat
      /\ CHState.set_G mat st = CHState.set_B mat st)
  /\ (CHState.C (CHState.set_M mat st) = mat
      /\ CHState.M (CHState.set_C mat st) = mat
      /\ CHState.set_M mat st = CHState.set_C mat st)
  /\ (CHState.g (CHState.set_gamma vec st) = vec
      /\ CHState.gamma (CHState.set_g vec st) = vec
      /\ CHState.set_gamma vec st = CHState.set_g vec st)
  /\ (CHState.phase (CHState.set_w c st) = c
      /\ CHState.w (CHState.set_phase c st) = c
      /\ CHState.set_w c st = CHState.set_phase c st).
Proof. repeat split. Qed.

(** ** Broadcasting *)

Lemma bdim_same n : Np.bdim n n = Ok n.
Proof. unfold Np.bdim. by rewrite decide_True. Qed.

Lemma bdim_one_l m : Np.bdim 1 m = Ok m.
Proof. unfold Np.bdim. destruct (decide (1%nat = m)) as [<-|]; done. Qed.

Lemma bdim_one_r n : Np.bdim n 1 = Ok n.
Proof.
  unfold Np.bdim. destruct (decide (n = 1%nat)) as [->|]; [done|].
  by destruct (decide (n = 1%nat)).
Qed.

Lemma bdim_mismatch n m :
  n <> m -> n <> 1%nat -> m <> 1%nat -> Np.bdim n m = Raise ValueError.
Proof. intros. unfold Np.bdim. by rewrite !decide_False. Qed.

Lemma bidx_same n i : Np.bidx n n i = i.
Proof. unfold Np.bidx. by rewrite decide_True. Qed.

(** Position [k] of a row-major buffer is entry [(k / c, k mod c)]. *)
Lemma lookup_tabulate_flat {T} (f : nat -> nat -> T) r c k :
  (k < r * c)%nat ->
  Np.tabulate r c f !! k = Some (f (k / c)%nat (k mod c)%nat).
Proof.
  intros Hk. assert (c <> 0)%nat by lia.
  rewrite (Nat.div_mod_eq k c) at 1.
  rewrite (Nat.mul_comm c). apply lookup_tabulate.
  - apply Nat.Div0.div_lt_upper_bound. lia.
  - by apply Nat.mod_upper_bound.
Qed.

Lemma tabulate_zip_with (f : Z -> Z -> Z) r c (x y : list Z) :
  length x = (r * c)%nat -> length y = (r * c)%nat ->
  Np.tabulate r c (fun i j => f (x !!! (i * c + j)%nat) (y !!! (i * c + j)%nat))
  = zip_with f x y.
Proof.
  intros Hx Hy. apply list_eq. intros k.
  destruct (decide (k < r * c)%nat) as [Hk|Hk].
  - rewrite lookup_tabulate_flat by done.
    assert (Hkc : (k / c * c + k mod c = k)%nat).
    { rewrite (Nat.div_mod_eq k c) at 3. lia. }
    rewrite Hkc, lookup_zip_with.
    rewrite (list_lookup_lookup_total_lt x k), (list_lookup_lookup_total_lt y k) by lia.
    done.
  - rewrite !(proj2 (lookup_ge_None _ _)); [done| |].
    + rewrite length_zip_with. lia.
    + rewrite length_tabulate. lia.
Qed.

Lemma seq_zip_with (f : Z -> Z -> Z) n (x y : list Z) :
  length x = n -> length y = n ->
  map (fun i => f (x !!! i) (y !!! i)) (seq 0 n) = zip_with f x y.
Proof.
  intros Hx Hy. apply list_eq. intros k.
  destruct (decide (k < n)%nat) as [Hk|Hk].
  - rewrite list_lookup_fmap, lookup_seq_lt, lookup_zip_with by done. simpl.
    rewrite (list_lookup_lookup_total_lt x k), (list_lookup_lookup_total_lt y k) by lia.
    done.
  - rewrite !(proj2 (lookup_ge_None _ _)); [done| |].
    + rewrite length_zip_with. lia.
    + rewrite length_map, length_seq. lia.
Qed.

(** On equal shapes a binary operation acts entry by entry. *)
Lemma binop_same_length f n (x y : list Z) :
  length x = n -> length y = n -> Np.binop f x y = Ok (zip_with f x y).
Proof.
  intros Hx Hy. unfold Np.binop. rewrite Hx, Hy, bdim_same. simpl.
  f_equal. rewrite <- (seq_zip_with f n x y) by done.
  apply map_ext. intros i. by rewrite bidx_same.
Qed.

Lemma binop2_same_shape f n a b :
  square n a -> square n b ->
  Np.binop2 f a b = Ok (Np.Array2 n n (zip_with f (Np.data a) (Np.data b))).
Proof.
  intros (Har & Hac & Hal) (Hbr & Hbc & Hbl). unfold Np.binop2.
  rewrite Har, Hac, Hbr, Hbc, bdim_same. simpl.
  do 2 f_equal. rewrite <- (tabulate_zip_with f n n) by done.
  unfold Np.tabulate. apply flat_map_ext. intros i. apply map_ext. intros j.
  by rewrite !bidx_same.
Qed.

Lemma binop_mismatch f (x y : list Z) :
  length x <> length y -> length x <> 1%nat -> length y <> 1%nat ->
  Np.binop f x y = Raise ValueError.
Proof. intros. unfold Np.binop. by rewrite bdim_mismatch. Qed.

Lemma binop2_mismatch f a b :
  Np.rows a <> Np.rows b -> Np.rows a <> 1%nat -> Np.rows b <> 1%nat ->
  Np.binop2 f a b = Raise ValueError.
Proof.
  intros. unfold Np.binop2.
  by rewrite (bdim_mismatch (Np.rows a) (Np.rows b)) by done.
Qed.

(** ** Reduction modulo 2 and 4 after eight-bit arithmetic *)

Lemma rem_sub_u8 m x y :
  (m | 256) -> 0 < m -> Np.rem_u8 m (Np.sub_u8 x y) = sub_mod m x y.
Proof.
  intros Hdiv Hm. unfold Np.rem_u8, Np.sub_u8, Np.uint8, sub_mod.
  destruct (Z.eqb_spec m 0); [lia|].
  by apply Z.mod_mod_divide.
Qed.

Lemma rem_add_u8 m x y :
  (m | 256) -> 0 < m -> Np.rem_u8 m (Np.add_u8 x y) = add_mod m x y.
Proof.
  intros Hdiv Hm. unfold Np.rem_u8, Np.add_u8, Np.uint8, add_mod.
  destruct (Z.eqb_spec m 0); [lia|].
  by apply Z.mod_mod_divide.
Qed.

Lemma divide_2_256 : (2 | 256).
Proof. by exists 128. Qed.

Lemma divide_4_256 : (4 | 256).
Proof. by exists 64. Qed.

Lemma rem_u8_2_bit x : is_bit (Np.rem_u8 2 x).
Proof.
  unfold Np.rem_u8, is_bit. simpl.
  pose proof (Z.mod_pos_bound x 2). lia.
Qed.

Lemma rem_u8_4_mod4 x : is_mod4 (Np.rem_u8 4 x).
Proof.
  unfold Np.rem_u8, is_mod4. simpl.
  pose proof (Z.mod_pos_bound x 4). lia.
Qed.

Lemma rem_bits x : Forall is_bit (Np.rem 2 x).
Proof. unfold Np.rem. apply Forall_fmap, Forall_true. intros; apply rem_u8_2_bit. Qed.

Lemma rem2_bits a : Forall is_bit (Np.data (Np.rem2 2 a)).
Proof. simpl. apply Forall_fmap, Forall_true. intros; apply rem_u8_2_bit. Qed.

Lemma rem_mod4 x : Forall is_mod4 (Np.rem 4 x).
Proof. unfold Np.rem. apply Forall_fmap, Forall_true. intros; apply rem_u8_4_mod4. Qed.

Lemma sub_add_mod m x y :
  0 < m -> add_mod m (sub_mod m x y) y = x mod m.
Proof.
  intros Hm. unfold add_mod, sub_mod.
  rewrite Zplus_mod_idemp_l. f_equal. lia.
Qed.

Lemma map_zip_with {T U V W} (h : V -> W) (f : T -> U -> V) l k :
  map h (zip_with f l k) = zip_with (fun x y => h (f x y)) l k.
Proof.
  revert k; induction l as [|x l IH]; intros [|y k]; simpl; [done..|].
  by rewrite IH.
Qed.

Lemma rem_zip_sub m x y :
  (m | 256) -> 0 < m ->
  Np.rem m (zip_with Np.sub_u8 x y) = zip_with (sub_mod m) x y.
Proof.
  intros Hd Hm. unfold Np.rem. rewrite map_zip_with.
  apply zip_with_ext; [|done..]. intros. by apply rem_sub_u8.
Qed.

Lemma rem_zip_add m x y :
  (m | 256) -> 0 < m ->
  Np.rem m (zip_with Np.add_u8 x y) = zip_with (add_mod m) x y.
Proof.
  intros Hd Hm. unfold Np.rem. rewrite map_zip_with.
  apply zip_with_ext; [|done..]. intros. by apply rem_add_u8.
Qed.

Lemma rem2_zip_sub n x y :
  Np.rem2 2 (Np.Array2 n n (zip_with Np.sub_u8 x y))
  = Np.Array2 n n (zip_with (sub_mod 2) x y).
Proof.
  unfold Np.rem2. simpl. f_equal.
  apply (rem_zip_sub 2); [apply divide_2_256 | lia].
Qed.

Lemma rem2_zip_add n x y :
  Np.rem2 2 (Np.Array2 n n (zip_with Np.add_u8 x y))
  = Np.Array2 n n (zip_with (add_mod 2) x y).
Proof.
  unfold Np.rem2. simpl. f_equal.
  apply (rem_zip_add 2); [apply divide_2_256 | lia].
Qed.

(** Subtracting and adding back the same operand gives the left operand
    reduced modulo [m]. *)
Lemma zip_sub_add m x y :
  0 < m -> length x = length y ->
  zip_with (add_mod m) (zip_with (sub_mod m) x y) y = map (fun z => z mod m) x.
Proof.
  intros Hm. revert y; induction x as [|a x IH]; intros [|b y] Hlen;
    simpl in *; try done.
  rewrite sub_add_mod by done. f_equal. apply IH. lia.
Qed.

Lemma map_mod_small m x :
  Forall (fun z => 0 <= z < m) x -> map (fun z => z mod m) x = x.
Proof.
  induction 1 as [|a x Ha _ IH]; simpl; [done|].
  by rewrite Z.mod_small, IH.
Qed.

Lemma is_bit_range x : Forall is_bit x -> Forall (fun z => 0 <= z < 2) x.
Proof. apply Forall_impl. unfold is_bit. lia. Qed.

(** ** The phase *)

Lemma c_div_nonzero x y :
  c_is_zero y = false -> exists q, c_div x y = Ok q.
Proof. intros Hz. unfold c_div. rewrite Hz. by eexists. Qed.

Lemma c_div_zero x y : c_is_zero y = true -> c_div x y = Raise ZeroDivisionError.
Proof. intros Hz. unfold c_div. by rewrite Hz. Qed.

(** ** [__sub__] and [__add__] on operands of one size *)

(** Rewrites the six array operations of [__sub__] or [__add__] on two
    instances of one size into their entrywise form. *)
Ltac entrywise n HX HY :=
  rewrite (binop2_same_shape _ n _ _ (wf_A _ _ HX) (wf_A _ _ HY)),
    (binop2_same_shape _ n _ _ (wf_B _ _ HX) (wf_B _ _ HY)),
    (binop2_same_shape _ n _ _ (wf_C _ _ HX) (wf_C _ _ HY)),
    (binop_same_length _ n _ _ (wf_g _ _ HX) (wf_g _ _ HY)),
    (binop_same_length _ n _ _ (wf_v _ _ HX) (wf_v _ _ HY)),
    (binop_same_length _ n _ _ (wf_s _ _ HX) (wf_s _ _ HY)).

(** Case analysis on the six array operations, keeping the run in which
    all of them return. *)
Ltac all_return X H :=
  destruct (Np.binop2 _ (CHState.A X) _) as [?a|]; [simpl in H|done];
  destruct (Np.binop2 _ (CHState.B X) _) as [?b|]; [simpl in H|done];
  destruct (Np.binop2 _ (CHState.C X) _) as [?c|]; [simpl in H|done];
  destruct (Np.binop _ (CHState.g X) _) as [?g|]; [simpl in H|done];
  destruct (Np.binop _ (CHState.v X) _) as [?v|]; [simpl in H|done];
  destruct (Np.binop _ (CHState.s X) _) as [?s|]; [simpl in H|done].

(** On two instances of size [n] the difference is computed entry by
    entry: modulo 2 on the bit fields, modulo 4 on gamma; the phases are
    divided. *)
Lemma sub_same_size n X Y :
  wf n X -> wf n Y ->
  CHState.sub X Y
  = (p ← c_div (CHState.phase X) (CHState.phase Y);
     Ok (CHState.mk (CHState.N X)
           (Np.Array2 n n (zip_with (sub_mod 2) (Np.data (CHState.A X)) (Np.data (CHState.A Y))))
           (Np.Array2 n n (zip_with (sub_mod 2) (Np.data (CHState.B X)) (Np.data (CHState.B Y))))
           (Np.Array2 n n (zip_with (sub_mod 2) (Np.data (CHState.C X)) (Np.data (CHState.C Y))))
           (zip_with (sub_mod 4) (CHState.g X) (CHState.g Y))
           (zip_with (sub_mod 2) (CHState.v X) (CHState.v Y))
           (zip_with (sub_mod 2) (CHState.s X) (CHState.s Y))
           p)).
Proof.
  intros HX HY. unfold CHState.sub.
  entrywise n HX HY.
  simpl. rewrite !rem2_zip_sub.
  rewrite (rem_zip_sub 4) by (apply divide_4_256 || lia).
  rewrite !(rem_zip_sub 2) by (apply divide_2_256 || lia).
  reflexivity.
Qed.

Lemma add_same_size n X Y :
  wf n X -> wf n Y ->
  CHState.add X Y
  = Ok (CHState.mk (CHState.N X)
          (Np.Array2 n n (zip_with (add_mod 2) (Np.data (CHState.A X)) (Np.data (CHState.A Y))))
          (Np.Array2 n n (zip_with (add_mod 2) (Np.data (CHState.B X)) (Np.data (CHState.B Y))))
          (Np.Array2 n n (zip_with (add_mod 2) (Np.data (CHState.C X)) (Np.data (CHState.C Y))))
          (zip_with (add_mod 4) (CHState.g X) (CHState.g Y))
          (zip_with (add_mod 2) (CHState.v X) (CHState.v Y))
          (zip_with (add_mod 2) (CHState.s X) (CHState.s Y))
          (c_mul (CHState.phase X) (CHState.phase Y))).
Proof.
  intros HX HY. unfold CHState.add.
  entrywise n HX HY.
  simpl. rewrite !rem2_zip_add.
  rewrite (rem_zip_add 4) by (apply divide_4_256 || lia).
  rewrite !(rem_zip_add 2) by (apply divide_2_256 || lia).
  reflexivity.
Qed.

Lemma sub_reduced X Y Z : CHState.sub X Y = Ok Z -> reduced Z.
Proof.
  unfold CHState.sub. intros H.
  all_return X H.
  destruct (c_div _ _) as [p|]; [simpl in H|done].
  injection H as <-.
  split; first [apply rem2_bits | apply rem_mod4 | apply rem_bits].
Qed.

Lemma add_reduced X Y Z : CHState.add X Y = Ok Z -> reduced Z.
Proof.
  unfold CHState.add. intros H.
  all_return X H.
  injection H as <-.
  split; first [apply rem2_bits | apply rem_mod4 | apply rem_bits].
Qed.

Lemma sub_same_size_ok n X Y :
  wf n X -> wf n Y -> c_is_zero (CHState.phase Y) = false ->
  exists D, CHState.sub X Y = Ok D /\ wf n D.
Proof.
  intros HX HY Hz. rewrite (sub_same_size n) by done.
  destruct (c_div_nonzero (CHState.phase X) (CHState.phase Y) Hz) as (q & ->).
  simpl. eexists; split; [reflexivity|].
  destruct HX as [HN [_ [_ HA]] [_ [_ HB]] [_ [_ HC]] Hg Hv Hs].
  destruct HY as [_ [_ [_ HA']] [_ [_ HB']] [_ [_ HC']] Hg' Hv' Hs'].
  split; simpl; [done|..]; repeat split; simpl; rewrite ?length_zip_with; lia.
Qed.

Lemma add_same_size_ok n X Y :
  wf n X -> wf n Y -> exists S, CHState.add X Y = Ok S /\ wf n S.
Proof.
  intros HX HY. rewrite (add_same_size n) by done.
  eexists; split; [reflexivity|].
  destruct HX as [HN [_ [_ HA]] [_ [_ HB]] [_ [_ HC]] Hg Hv Hs].
  destruct HY as [_ [_ [_ HA']] [_ [_ HB']] [_ [_ HC']] Hg' Hv' Hs'].
  split; simpl; [done|..]; repeat split; simpl; rewrite ?length_zip_with; lia.
Qed.

(** C5: for two instances of one size n, whatever bytes they store, the sum
    and the difference are instances of size n that have every entry of F,
    G, M, v, s in {0, 1} and every entry of gamma in {0, 1, 2, 3}.  The sum
    always exists; the difference exists unless the right phase is zero,
    which is a division by zero. *)
Theorem modular_closure (n : nat) (X Y : CHState.t) :
  wf n X -> wf n Y ->
  (exists S, CHState.add X Y = Ok S /\ wf n S /\ reduced S)
  /\ (c_is_zero (CHState.phase Y) = false ->
      exists D, CHState.sub X Y = Ok D /\ wf n D /\ reduced D)
  /\ (c_is_zero (CHState.phase Y) = true ->
      CHState.sub X Y = Raise ZeroDivisionError).
Proof.
  intros HX HY. split; [|split].
  - destruct (add_same_size_ok n X Y HX HY) as (S & HS & HwS).
    exists S. eauto using add_reduced.
  - intros Hz. destruct (sub_same_size_ok n X Y HX HY Hz) as (D & HD & HwD).
    exists D. eauto using sub_reduced.
  - intros Hz. rewrite (sub_same_size n) by done. by rewrite c_div_zero.
Qed.

Lemma modular_closure_witness :
  (exists S, CHState.add sample_x sample_y = Ok S /\ wf 2 S /\ reduced S)
  /\ (exists D, CHState.sub sample_x sample_y = Ok D /\ wf 2 D /\ reduced D).
Proof.
  destruct (modular_closure 2 sample_x sample_y) as (Hadd & Hsub & _);
    [by repeat split | by repeat split |].
  split; [exact Hadd | apply Hsub; reflexivity].
Defined.

(** The same operand subtracted and added back: every array of the result
    is the array of the left operand reduced modulo 2, or modulo 4 for
    gamma; the phase is the quotient of the phases times the right phase. *)
Lemma sub_add_same_size n X Y :
  wf n X -> wf n Y -> c_is_zero (CHState.phase Y) = false ->
  exists D, CHState.sub X Y = Ok D
    /\ CHState.add D Y
       = Ok (CHState.mk (CHState.N X)
               (Np.Array2 n n (map (fun z => z mod 2) (Np.data (CHState.A X))))
               (Np.Array2 n n (map (fun z => z mod 2) (Np.data (CHState.B X))))
               (Np.Array2 n n (map (fun z => z mod 2) (Np.data (CHState.C X))))
               (map (fun z => z mod 4) (CHState.g X))
               (map (fun z => z mod 2) (CHState.v X))
               (map (fun z => z mod 2) (CHState.s X))
               (c_mul (CHState.phase D) (CHState.phase Y))).
Proof.
  intros HX HY Hz.
  destruct (sub_same_size_ok n X Y HX HY Hz) as (D & HD & HwfD).
  exists D. split; [done|].
  rewrite (add_same_size n D Y HwfD HY).
  rewrite (sub_same_size n X Y HX HY) in HD.
  destruct (c_div _ _) as [q|]; [|done]. injection HD as <-. simpl.
  destruct HX as [HN [_ [_ HA]] [_ [_ HB]] [_ [_ HC]] Hg Hv Hs].
  destruct HY as [_ [_ [_ HA']] [_ [_ HB']] [_ [_ HC']] Hg' Hv' Hs'].
  rewrite !zip_sub_add by lia. reflexivity.
Qed.

Lemma square_eta n a : square n a -> Np.Array2 n n (Np.data a) = a.
Proof. destruct a as [r c d]. intros (Hr & Hc & _). simpl in *. by subst. Qed.

(** X20: subtracting an operand and adding it again recovers the arrays:
    for X with reduced entries and Y of the same size with a phase that is
    not zero, (X - Y) + Y exists and has the N, F, G, M, gamma, v and s of
    X.  Nothing is said of its phase, which the code computes as a rounded
    product of a rounded quotient. *)
Theorem sub_add_arrays (n : nat) (X Y : CHState.t) :
  wf n X -> wf n Y -> reduced X -> c_is_zero (CHState.phase Y) = false ->
  exists D S,
    CHState.sub X Y = Ok D /\ CHState.add D Y = Ok S /\ same_arrays S X.
Proof.
  intros HX HY [rF rG rM rg rv rs] Hz.
  destruct (sub_add_same_size n X Y HX HY Hz) as (D & HD & HS).
  exists D. eexists. split; [done|]. split; [exact HS|].
  unfold same_arrays, CHState.F, CHState.G, CHState.M, CHState.gamma in *.
  simpl.
  rewrite !(map_mod_small 2) by by apply is_bit_range.
  rewrite (map_mod_small 4) by done.
  rewrite (square_eta n _ (wf_A _ _ HX)), (square_eta n _ (wf_B _ _ HX)),
    (square_eta n _ (wf_C _ _ HX)).
  done.
Qed.

Lemma sub_add_arrays_witness :
  exists D S,
    CHState.sub sample_x sample_y = Ok D /\ CHState.add D sample_y = Ok S
    /\ same_arrays S sample_x.
Proof.
  apply (sub_add_arrays 2 sample_x sample_y).
  - by repeat split.
  - by repeat split.
  - split; simpl; forall_lia.
  - reflexivity.
Defined.

(** Without the reduction of the left operand the fields come back
    reduced: a stored 2 in [s] comes back as 0. *)
Lemma sub_add_unreduced :
  exists X Y D S,
    CHState.basis None (Some [2]) = Ok X /\ CHState.basis None (Some [0]) = Ok Y
    /\ CHState.sub X Y = Ok D /\ CHState.add D Y = Ok S
    /\ CHState.s X = [2] /\ CHState.s S = [0].
Proof. do 4 eexists. repeat split. Qed.

(** ** [__sub__] and [__add__] on operands of different sizes *)

Lemma bdim_broadcast n m :
  n <> m -> n = 1%nat \/ m = 1%nat -> Np.bdim n m = Ok (broadcast_size n m).
Proof.
  intros Hne [-> | ->]; unfold broadcast_size.
  - by rewrite decide_True, bdim_one_l.
  - by rewrite decide_False, bdim_one_r.
Qed.

Lemma binop2_shape f a b n m k :
  square n a -> square m b -> Np.bdim n m = Ok k ->
  exists z, Np.binop2 f a b = Ok z /\ square k z.
Proof.
  intros (Har & Hac & _) (Hbr & Hbc & _) Hk. unfold Np.binop2.
  rewrite Har, Hac, Hbr, Hbc, Hk. simpl.
  eexists; split; [reflexivity|].
  repeat split; simpl. apply length_tabulate.
Qed.

Lemma binop_shape f (x y : list Z) n m k :
  length x = n -> length y = m -> Np.bdim n m = Ok k ->
  exists z, Np.binop f x y = Ok z /\ length z = k.
Proof.
  intros Hx Hy Hk. unfold Np.binop. rewrite Hx, Hy, Hk. simpl.
  eexists; split; [reflexivity|]. by rewrite length_map, length_seq.
Qed.

Lemma square_rem2 k m a : square k a -> square k (Np.rem2 m a).
Proof.
  intros (Hr & Hc & Hl). repeat split; simpl; [done..|].
  by rewrite length_map.
Qed.

Lemma length_rem m x : length (Np.rem m x) = length x.
Proof. apply length_map. Qed.

(** Runs the six array operations on operands whose sizes broadcast to the
    size given by [Hk], keeping the shapes of the results. *)
Ltac stretched f n m HX HY Hk :=
  destruct (binop2_shape f _ _ n m _ (wf_A _ _ HX) (wf_A _ _ HY) Hk)
    as (?a & -> & ?Ha);
  destruct (binop2_shape f _ _ n m _ (wf_B _ _ HX) (wf_B _ _ HY) Hk)
    as (?b & -> & ?Hb);
  destruct (binop2_shape f _ _ n m _ (wf_C _ _ HX) (wf_C _ _ HY) Hk)
    as (?c & -> & ?Hc);
  destruct (binop_shape f _ _ n m _ (wf_g _ _ HX) (wf_g _ _ HY) Hk)
    as (?g & -> & ?Hg);
  destruct (binop_shape f _ _ n m _ (wf_v _ _ HX) (wf_v _ _ HY) Hk)
    as (?v & -> & ?Hv);
  destruct (binop_shape f _ _ n m _ (wf_s _ _ HX) (wf_s _ _ HY) Hk)
    as (?s & -> & ?Hs).

Lemma add_broadcast n m X Y :
  wf n X -> wf m Y -> n <> m -> n = 1%nat \/ m = 1%nat ->
  exists S, CHState.add X Y = Ok S /\ CHState.N S = CHState.N X
            /\ shaped (broadcast_size n m) S.
Proof.
  intros HX HY Hne H1. pose proof (bdim_broadcast n m Hne H1) as Hk.
  unfold CHState.add.
  stretched Np.add_u8 n m HX HY Hk.
  simpl. eexists; split; [reflexivity|]. split; [done|].
  split; simpl; rewrite ?length_rem; auto using square_rem2.
Qed.

Lemma sub_broadcast n m X Y :
  wf n X -> wf m Y -> n <> m -> n = 1%nat \/ m = 1%nat ->
  c_is_zero (CHState.phase Y) = false ->
  exists D, CHState.sub X Y = Ok D /\ CHState.N D = CHState.N X
            /\ shaped (broadcast_size n m) D.
Proof.
  intros HX HY Hne H1 Hz. pose proof (bdim_broadcast n m Hne H1) as Hk.
  unfold CHState.sub.
  stretched Np.sub_u8 n m HX HY Hk.
  destruct (c_div_nonzero (CHState.phase X) (CHState.phase Y) Hz) as (q & ->).
  simpl. eexists; split; [reflexivity|]. split; [done|].
  split; simpl; rewrite ?length_rem; auto using square_rem2.
Qed.

Lemma sub_add_mismatch n m X Y :
  wf n X -> wf m Y -> n <> m -> n <> 1%nat -> m <> 1%nat ->
  CHState.sub X Y = Raise ValueError /\ CHState.add X Y = Raise ValueError.
Proof.
  intros HX HY Hne Hn Hm.
  destruct (wf_A _ _ HX) as (Hr & _), (wf_A _ _ HY) as (Hr' & _).
  unfold CHState.sub, CHState.add.
  rewrite (binop2_mismatch Np.sub_u8 (CHState.A X) (CHState.A Y))
    by (rewrite ?Hr, ?Hr'; done).
  rewrite (binop2_mismatch Np.add_u8 (CHState.A X) (CHState.A Y))
    by (rewrite ?Hr, ?Hr'; done).
  done.
Qed.

(** C3, as the code has it: two instances of unequal sizes, neither of them
    a single qubit, make the sum and the difference fail with the shape
    error of the first array operation.  When one of the two is a single
    qubit nothing fails for the shapes: its arrays are stretched to the
    other size, and the result keeps the left operand's N. *)
Theorem sub_add_unequal_sizes (n m : nat) (X Y : CHState.t) :
  wf n X -> wf m Y -> n <> m ->
  (n <> 1%nat -> m <> 1%nat ->
   CHState.sub X Y = Raise ValueError /\ CHState.add X Y = Raise ValueError)
  /\ (n = 1%nat \/ m = 1%nat ->
      (exists S, CHState.add X Y = Ok S /\ CHState.N S = CHState.N X
                 /\ shaped (broadcast_size n m) S)
      /\ (c_is_zero (CHState.phase Y) = false ->
          exists D, CHState.sub X Y = Ok D /\ CHState.N D = CHState.N X
                    /\ shaped (broadcast_size n m) D)).
Proof.
  intros HX HY Hne. split.
  - intros Hn Hm. by apply (sub_add_mismatch n m).
  - intros H1. split.
    + by apply add_broadcast.
    + intros Hz. by apply sub_broadcast.
Qed.

Lemma sub_add_unequal_sizes_witness :
  CHState.sub two_qubits (CHState.mk 0 (Np.Array2 0 0 []) (Np.Array2 0 0 [])
                            (Np.Array2 0 0 []) [] [] [] c_one)
  = Raise ValueError
  /\ exists S, CHState.add one_qubit two_qubits = Ok S
               /\ CHState.N S = 1 /\ shaped 2 S.
Proof.
  split.
  - apply (sub_add_unequal_sizes 2 0 two_qubits
             (CHState.mk 0 (Np.Array2 0 0 []) (Np.Array2 0 0 [])
                         (Np.Array2 0 0 []) [] [] [] c_one));
      first [lia | by repeat split].
  - apply (sub_add_unequal_sizes 1 2 one_qubit two_qubits);
      first [lia | by left | by repeat split].
Defined.

(** The claim as the specification words it fails on a single qubit against
    two qubits: both operations return an instance. *)
Lemma sub_add_broadcast_single_qubit :
  wf 1 one_qubit /\ wf 2 two_qubits
  /\ CHState.N one_qubit <> CHState.N two_qubits
  /\ CHState.sub one_qubit two_qubits
     = Ok (CHState.mk 1 (Np.Array2 2 2 [0; 1; 1; 0]) (Np.Array2 2 2 [0; 1; 1; 0])
                      (Np.Array2 2 2 [0; 0; 0; 0]) [0; 0] [0; 0] [0; 0] c_one)
  /\ CHState.add two_qubits one_qubit
     = Ok (CHState.mk 2 (Np.Array2 2 2 [0; 1; 1; 0]) (Np.Array2 2 2 [0; 1; 1; 0])
                      (Np.Array2 2 2 [0; 0; 0; 0]) [0; 0] [0; 0] [0; 0] c_one).
Proof. by repeat split. Qed.

(** ** Boolean masks *)

Lemma select_app {T} (m1 m2 : list bool) (x1 x2 : list T) :
  length m1 = length x1 ->
  Np.select (m1 ++ m2) (x1 ++ x2) = Np.select m1 x1 ++ Np.select m2 x2.
Proof.
  revert x1; induction m1 as [|b m1 IH]; intros [|a x1] Hlen; simpl in *;
    try done.
  rewrite IH by lia. by destruct b.
Qed.

Lemma select_all_true {T} (x : list T) n :
  length x = n -> Np.select (replicate n true) x = x.
Proof.
  revert n; induction x as [|a x IH]; intros [|n] Hlen; simpl in *; try done.
  rewrite IH by lia. done.
Qed.

Lemma select_all_false {T} (l : list nat) (x : list T) :
  Np.select (map (fun _ => false) l) x = [].
Proof.
  revert x; induction l as [|i l IH]; intros [|a x]; simpl; auto.
Qed.

(** The mask built by [delete_qubit] keeps everything but entry [k]. *)
Lemma select_keep_mask {T} (x : list T) n k :
  length x = n -> (k < n)%nat ->
  Np.select (<[k:=false]> (replicate n true)) x = remove_entry k x.
Proof.
  unfold remove_entry.
  revert n k; induction x as [|a x IH]; intros [|n] [|k] Hlen Hk;
    simpl in *; try lia.
  - rewrite select_all_true by lia. by rewrite drop_0.
  - rewrite IH by lia. done.
Qed.

Lemma lookup_remove_entry {T} (x : list T) k j :
  (k < length x)%nat -> remove_entry k x !! j = x !! bump k j.
Proof.
  intros Hk. unfold remove_entry, bump. destruct (decide (j < k)%nat).
  - rewrite lookup_app_l by (rewrite length_take; lia).
    by rewrite lookup_take_lt.
  - rewrite lookup_app_r by (rewrite length_take; lia).
    rewrite length_take, lookup_drop. f_equal. lia.
Qed.

Lemma length_remove_entry {T} (x : list T) k :
  (k < length x)%nat -> length (remove_entry k x) = (length x - 1)%nat.
Proof.
  intros Hk. unfold remove_entry.
  rewrite length_app, length_take, length_drop. lia.
Qed.

(** ** Rows of a buffer *)

(** A mask given row by row selects row by row. *)
Lemma select_rows {T} (h : nat -> nat -> bool) c r start (d : list T) :
  length d = (r * c)%nat ->
  Np.select (flat_map (fun i => map (h i) (seq 0 c)) (seq start r)) d
  = flat_map (fun i => Np.select (map (h (start + i)%nat) (seq 0 c))
                                 (take c (drop (i * c) d)))
             (seq 0 r).
Proof.
  revert start d; induction r as [|r IH]; intros start d Hlen; [done|].
  rewrite <- (take_drop c d) at 1.
  cbn [seq flat_map].
  rewrite select_app by (rewrite length_map, length_seq, length_take; lia).
  rewrite IH by (rewrite length_drop; lia).
  rewrite Nat.add_0_r, drop_0. f_equal.
  rewrite <- seq_shift, !flat_map_concat_map, map_map.
  f_equal. apply map_ext. intros i.
  rewrite drop_drop. do 3 f_equal; lia.
Qed.

Lemma length_flat_map_uniform {T} (f : nat -> list T) c (l : list nat) :
  Forall (fun i => length (f i) = c) l ->
  length (flat_map f l) = (length l * c)%nat.
Proof.
  induction 1 as [|i l Hi _ IH]; simpl; [done|].
  rewrite length_app, Hi, IH. done.
Qed.

Lemma lookup_flat_map_uniform {T} (f : nat -> list T) c (l : list nat) i x j :
  Forall (fun i => length (f i) = c) l ->
  l !! i = Some x -> (j < c)%nat ->
  flat_map f l !! (i * c + j)%nat = f x !! j.
Proof.
  intros Hall. revert i; induction Hall as [|y l Hy _ IH]; intros i Hi Hj;
    [done|].
  simpl. destruct i as [|i]; simpl in *.
  - injection Hi as ->. by rewrite lookup_app_l by lia.
  - rewrite lookup_app_r by lia. rewrite Hy.
    replace (c + i * c + j - c)%nat with (i * c + j)%nat by lia.
    by apply IH.
Qed.

(** The indices [0 .. n-1] without [k], in order. *)
Lemma lookup_seq_without n k i :
  (k < n)%nat -> (i < n - 1)%nat ->
  (seq 0 k ++ seq (S k) (n - S k)) !! i = Some (bump k i).
Proof.
  intros Hk Hi. unfold bump. destruct (decide (i < k)%nat).
  - rewrite lookup_app_l by (rewrite length_seq; lia).
    by rewrite lookup_seq_lt.
  - rewrite lookup_app_r by (rewrite length_seq; lia).
    rewrite length_seq, lookup_seq_lt by lia. f_equal. lia.
Qed.

Lemma flat_map_skip {T} (f : nat -> list T) n k :
  (k < n)%nat -> f k = [] ->
  flat_map f (seq 0 n) = flat_map f (seq 0 k ++ seq (S k) (n - S k)).
Proof.
  intros Hk Hf.
  replace n with (k + S (n - S k))%nat at 1 by lia.
  rewrite seq_app, !flat_map_app. simpl. by rewrite Hf.
Qed.

(** ** [delete_qubit] *)

Lemma ones_bool_nat n : Np.ones_bool (Z.of_nat n) = Ok (replicate n true).
Proof.
  unfold Np.ones_bool. destruct (Z.ltb_spec (Z.of_nat n) 0); [lia|].
  by rewrite Nat2Z.id.
Qed.

Lemma norm_index_in_range len k :
  0 <= k < Z.of_nat len -> Np.norm_index len k = Ok (Z.to_nat k).
Proof.
  intros Hk. unfold Np.norm_index.
  destruct (Z.leb_spec 0 k), (Z.ltb_spec k (Z.of_nat len)); (done || lia).
Qed.

Lemma norm_index_negative len k :
  - Z.of_nat len <= k < 0 ->
  Np.norm_index len k = Np.norm_index len (k + Z.of_nat len).
Proof.
  intros Hk. rewrite (norm_index_in_range len (k + Z.of_nat len)) by lia.
  unfold Np.norm_index.
  destruct (Z.leb_spec 0 k); [lia|]. simpl.
  destruct (Z.leb_spec (- Z.of_nat len) k), (Z.ltb_spec k 0); (done || lia).
Qed.

Lemma norm_index_out_of_range len k :
  k < - Z.of_nat len \/ Z.of_nat len <= k ->
  Np.norm_index len k = Raise IndexError.
Proof.
  intros Hk. unfold Np.norm_index.
  destruct (Z.leb_spec 0 k), (Z.ltb_spec k (Z.of_nat len)),
    (Z.leb_spec (- Z.of_nat len) k), (Z.ltb_spec k 0); (done || lia).
Qed.

(** The method looks at [k] only through the position it denotes on an axis
    of length N. *)
Lemma delete_qubit_index n st k k' :
  wf n st -> Np.norm_index n k = Np.norm_index n k' ->
  CHState.delete_qubit st k = CHState.delete_qubit st k'.
Proof.
  intros Hwf Hk. unfold CHState.delete_qubit.
  rewrite (wf_N _ _ Hwf), ones_bool_nat. simpl.
  unfold Np.setitem. by rewrite length_replicate, Hk.
Qed.

Lemma keep_mask_total n k i :
  (k < n)%nat -> (i < n)%nat ->
  <[k:=false]> (replicate n true) !!! i = bool_decide (i <> k).
Proof.
  intros Hk Hi. apply list_lookup_total_correct.
  destruct (decide (i = k)) as [->|Hne].
  - rewrite list_lookup_insert_eq by (rewrite length_replicate; lia).
    by rewrite bool_decide_eq_false_2 by auto.
  - rewrite list_lookup_insert_ne by done.
    rewrite lookup_replicate_2 by done.
    by rewrite bool_decide_eq_true_2.
Qed.

Lemma map_lookup_total_seq (m : list bool) n :
  length m = n -> map (fun j => m !!! j) (seq 0 n) = m.
Proof.
  intros Hlen. apply list_eq. intros i.
  destruct (decide (i < n)%nat).
  - rewrite list_lookup_fmap, lookup_seq_lt by done. simpl.
    by rewrite list_lookup_lookup_total_lt by lia.
  - rewrite !(proj2 (lookup_ge_None _ _)); [done|lia|].
    rewrite length_map, length_seq. lia.
Qed.

(** What the two-dimensional mask of [delete_qubit] selects from a buffer:
    the rows other than [k], each without its entry [k]. *)
Lemma select_outer_keep_mask (d : list Z) n k :
  length d = (n * n)%nat -> (k < n)%nat ->
  Np.select
    (Np.data (Np.outer (<[k:=false]> (replicate n true))
                       (<[k:=false]> (replicate n true)))) d
  = flat_map (fun i => remove_entry k (take n (drop (i * n) d)))
             (seq 0 k ++ seq (S k) (n - S k)).
Proof.
  intros Hd Hk. set (m := <[k:=false]> (replicate n true)).
  assert (Hm : length m = n) by (unfold m; by rewrite length_insert, length_replicate).
  unfold Np.outer. simpl. rewrite Hm. unfold Np.tabulate.
  rewrite select_rows by done.
  rewrite (flat_map_skip _ n k Hk).
  - rewrite !flat_map_concat_map. f_equal. apply map_ext_in.
    intros i Hi. simpl.
    assert (i <> k /\ (i < n)%nat) as [Hik Hin].
    { apply in_app_or in Hi. rewrite !in_seq in Hi. lia. }
    unfold m at 1. rewrite keep_mask_total, bool_decide_eq_true_2 by done.
    simpl. rewrite (map_lookup_total_seq m n Hm).
    apply select_keep_mask; [|done].
    rewrite length_take, length_drop. nia.
  - simpl. unfold m at 1.
    rewrite keep_mask_total, bool_decide_eq_false_2 by auto.
    simpl. apply select_all_false.
Qed.

Lemma Forall_rows_without (d : list Z) n k :
  length d = (n * n)%nat -> (k < n)%nat ->
  Forall (fun i => length (remove_entry k (take n (drop (i * n) d))) = (n - 1)%nat)
         (seq 0 k ++ seq (S k) (n - S k)).
Proof.
  intros Hd Hk. apply Forall_forall. intros i Hi.
  apply in_app_or in Hi. rewrite !in_seq in Hi.
  assert (Hrow : length (take n (drop (i * n) d)) = n).
  { rewrite length_take, length_drop. nia. }
  rewrite length_remove_entry; lia.
Qed.

Lemma reshape_square {T} (x : list T) k :
  length x = (k * k)%nat ->
  Np.reshape x (Z.of_nat k) (Z.of_nat k) = Ok (Np.Array2 k k x).
Proof.
  intros Hlen. unfold Np.reshape.
  destruct (Z.eqb_spec (Z.of_nat k) (-1)); [lia|]. simpl.
  destruct (Z.ltb_spec (Z.of_nat k) 0); [lia|]. simpl.
  destruct (Z.eqb_spec (Z.of_nat k * Z.of_nat k) (Z.of_nat (length x))); [|lia].
  by rewrite Nat2Z.id.
Qed.

(** Masking a square array with the outer product of the keep-mask and
    reshaping gives the array without row [k] and column [k]. *)
Lemma delete_matrix n k a :
  square n a -> (k < n)%nat ->
  let mask := <[k:=false]> (replicate n true) in
  exists x a',
    Np.getitem_mask2 a (Np.outer mask mask) = Ok x
    /\ Np.reshape x (Z.of_nat n - 1) (Z.of_nat n - 1) = Ok a'
    /\ minor n k a a'.
Proof.
  intros (Hr & Hc & Hd) Hk mask.
  assert (Hm : length mask = n)
    by (unfold mask; by rewrite length_insert, length_replicate).
  unfold Np.getitem_mask2.
  rewrite decide_True by (simpl; rewrite Hm; done).
  unfold mask. rewrite select_outer_keep_mask by done.
  pose proof (Forall_rows_without (Np.data a) n k Hd Hk) as Hall.
  set (d' := flat_map _ _).
  assert (Hd' : length d' = ((n - 1) * (n - 1))%nat).
  { unfold d'. rewrite (length_flat_map_uniform _ (n - 1)) by done.
    rewrite length_app, !length_seq. f_equal. lia. }
  exists d', (Np.Array2 (n - 1) (n - 1) d').
  split; [done|]. split.
  { replace (Z.of_nat n - 1) with (Z.of_nat (n - 1)) by lia.
    by apply reshape_square. }
  split; [by repeat split|].
  intros i j Hi Hj.
  assert (Hbi : (bump k i < n)%nat) by (unfold bump; case_decide; lia).
  assert (Hbj : (bump k j < n)%nat) by (unfold bump; case_decide; lia).
  destruct (lookup_lt_is_Some_2 (Np.data a) (bump k i * n + bump k j))
    as [z Hz]; [nia|].
  exists z. unfold Np.get. simpl.
  rewrite decide_True by done.
  rewrite decide_True by (rewrite Hr, Hc; done).
  rewrite Hc. split; [|done]. rewrite <- Hz. unfold d'.
  rewrite (lookup_flat_map_uniform _ (n - 1) _ i (bump k i) j Hall)
    by (done || by apply lookup_seq_without).
  rewrite lookup_remove_entry.
  - rewrite lookup_take_lt by done. by rewrite lookup_drop.
  - rewrite length_take, length_drop. nia.
Qed.

Lemma delete_vector n k (x : list Z) :
  length x = n -> (k < n)%nat ->
  Np.getitem_mask x (<[k:=false]> (replicate n true)) = Ok (remove_entry k x).
Proof.
  intros Hx Hk. unfold Np.getitem_mask.
  rewrite decide_True by (by rewrite length_insert, length_replicate).
  by rewrite select_keep_mask.
Qed.

(** An index in range: the keep-mask drops position [k] on every axis. *)
Lemma delete_qubit_in_range n st k :
  wf n st -> 0 <= k < Z.of_nat n ->
  exists st',
    CHState.delete_qubit st k = Ok st'
    /\ wf (n - 1) st'
    /\ CHState.N st' = CHState.N st - 1
    /\ minor n (Z.to_nat k) (CHState.F st) (CHState.F st')
    /\ minor n (Z.to_nat k) (CHState.G st) (CHState.G st')
    /\ minor n (Z.to_nat k) (CHState.M st) (CHState.M st')
    /\ CHState.gamma st' = remove_entry (Z.to_nat k) (CHState.gamma st)
    /\ CHState.v st' = remove_entry (Z.to_nat k) (CHState.v st)
    /\ CHState.s st' = remove_entry (Z.to_nat k) (CHState.s st)
    /\ CHState.phase st' = CHState.phase st.
Proof.
  intros Hwf Hk.
  assert (Hk' : (Z.to_nat k < n)%nat) by lia.
  destruct (delete_matrix n _ _ (wf_A _ _ Hwf) Hk') as (xa & a & Hxa & Ha & HmA).
  destruct (delete_matrix n _ _ (wf_B _ _ Hwf) Hk') as (xb & b & Hxb & Hb & HmB).
  destruct (delete_matrix n _ _ (wf_C _ _ Hwf) Hk') as (xc & c & Hxc & Hc & HmC).
  unfold CHState.delete_qubit.
  rewrite (wf_N _ _ Hwf), ones_bool_nat, bind_Ok.
  unfold Np.setitem.
  rewrite length_replicate, norm_index_in_range, !bind_Ok by done.
  rewrite Hxa, bind_Ok, Ha, bind_Ok, Hxb, bind_Ok, Hb, bind_Ok,
    Hxc, bind_Ok, Hc, bind_Ok.
  rewrite (delete_vector n _ _ (wf_g _ _ Hwf) Hk'), bind_Ok.
  rewrite (delete_vector n _ _ (wf_v _ _ Hwf) Hk'), bind_Ok.
  rewrite (delete_vector n _ _ (wf_s _ _ Hwf) Hk'), bind_Ok.
  eexists; split; [reflexivity|].
  destruct HmA as [HsA HeA], HmB as [HsB HeB], HmC as [HsC HeC].
  split.
  { split; simpl; try done; try lia;
      rewrite length_remove_entry;
      rewrite ?(wf_g _ _ Hwf), ?(wf_v _ _ Hwf), ?(wf_s _ _ Hwf); lia. }
  unfold minor, CHState.F, CHState.G, CHState.M, CHState.gamma. simpl.
  auto 12.
Qed.

(** C6: on a state of size N >= 1 and an index 0 <= k < N, [delete_qubit]
    returns a state of size N - 1 whose F, G, M are the original matrices
    without row k and column k, the other rows and columns in their order,
    whose gamma, v, s are the original vectors without entry k, and whose
    phase is the original phase.  The method is a function of the instance:
    it reads the fields of [st] and assigns none of them. *)
Theorem delete_qubit_spec (n : nat) (st : CHState.t) (k : Z) :
  wf n st -> (1 <= n)%nat -> 0 <= k < Z.of_nat n ->
  exists st',
    CHState.delete_qubit st k = Ok st'
    /\ wf (n - 1) st'
    /\ CHState.N st' = CHState.N st - 1
    /\ minor n (Z.to_nat k) (CHState.F st) (CHState.F st')
    /\ minor n (Z.to_nat k) (CHState.G st) (CHState.G st')
    /\ minor n (Z.to_nat k) (CHState.M st) (CHState.M st')
    /\ CHState.gamma st' = remove_entry (Z.to_nat k) (CHState.gamma st)
    /\ CHState.v st' = remove_entry (Z.to_nat k) (CHState.v st)
    /\ CHState.s st' = remove_entry (Z.to_nat k) (CHState.s st)
    /\ CHState.phase st' = CHState.phase st.
Proof. intros Hwf _ Hk. by apply delete_qubit_in_range. Qed.

Lemma delete_qubit_spec_witness :
  exists st',
    CHState.delete_qubit sample_y 0 = Ok st'
    /\ wf 1 st'
    /\ CHState.N st' = CHState.N sample_y - 1
    /\ minor 2 0 (CHState.F sample_y) (CHState.F st')
    /\ minor 2 0 (CHState.G sample_y) (CHState.G st')
    /\ minor 2 0 (CHState.M sample_y) (CHState.M st')
    /\ CHState.gamma st' = remove_entry 0 (CHState.gamma sample_y)
    /\ CHState.v st' = remove_entry 0 (CHState.v sample_y)
    /\ CHState.s st' = remove_entry 0 (CHState.s sample_y)
    /\ CHState.phase st' = CHState.phase sample_y.
Proof.
  apply (delete_qubit_spec 2 sample_y 0); first [lia | by repeat split].
Defined.

(** An index below 0 that is at least -N counts from the end. *)
Lemma delete_qubit_negative n st k :
  wf n st -> - Z.of_nat n <= k < 0 ->
  CHState.delete_qubit st k = CHState.delete_qubit st (k + Z.of_nat n).
Proof.
  intros Hwf Hk. apply (delete_qubit_index n); [done|].
  by apply norm_index_negative.
Qed.

Lemma delete_qubit_out_of_range n st k :
  wf n st -> k < - Z.of_nat n \/ Z.of_nat n <= k ->
  CHState.delete_qubit st k = Raise IndexError.
Proof.
  intros Hwf Hk. unfold CHState.delete_qubit.
  rewrite (wf_N _ _ Hwf), ones_bool_nat, bind_Ok.
  unfold Np.setitem.
  by rewrite length_replicate, norm_index_out_of_range by done.
Qed.

(** C7, as the code has it: on a state of size N, [delete_qubit(k)] fails
    with an index error for k >= N and for k < -N; for -N <= k < 0 the index
    counts from the end and the call returns what [delete_qubit(N + k)]
    returns, a state of size N - 1. *)
Theorem delete_qubit_bounds (n : nat) (st : CHState.t) (k : Z) :
  wf n st ->
  (k < - Z.of_nat n \/ Z.of_nat n <= k ->
   CHState.delete_qubit st k = Raise IndexError)
  /\ (- Z.of_nat n <= k < 0 ->
      CHState.delete_qubit st k = CHState.delete_qubit st (k + Z.of_nat n)
      /\ exists st', CHState.delete_qubit st k = Ok st' /\ wf (n - 1) st').
Proof.
  intros Hwf. split.
  - by apply delete_qubit_out_of_range.
  - intros Hk. split; [by apply delete_qubit_negative|].
    rewrite (delete_qubit_negative n) by done.
    destruct (delete_qubit_in_range n st (k + Z.of_nat n))
      as (st' & Hst' & Hwf' & _); [done | lia |].
    by exists st'.
Qed.

Lemma delete_qubit_bounds_witness :
  CHState.delete_qubit sample_y 2 = Raise IndexError
  /\ CHState.delete_qubit sample_y (-3) = Raise IndexError
  /\ CHState.delete_qubit sample_y (-2) = CHState.delete_qubit sample_y 0.
Proof.
  split; [|split].
  - destruct (delete_qubit_bounds 2 sample_y 2) as [Hout _];
      [by repeat split | apply Hout; lia].
  - destruct (delete_qubit_bounds 2 sample_y (-3)) as [Hout _];
      [by repeat split | apply Hout; lia].
  - destruct (delete_qubit_bounds 2 sample_y (-2)) as [_ Hneg];
      [by repeat split | apply Hneg; lia].
Defined.

(** The claim as the specification words it fails at k = -1 on two qubits:
    the call returns the state without its last qubit. *)
Lemma delete_qubit_minus_one :
  wf 2 two_qubits /\ ~ (0 <= -1 < CHState.N two_qubits)
  /\ CHState.delete_qubit two_qubits (-1) = Ok one_qubit.
Proof. split; [by repeat split | split; [lia | reflexivity]]. Qed.

(** ** [tab] *)

Lemma string_app_assoc (s1 s2 s3 : string) :
  ((s1 ++ s2) ++ s3 = s1 ++ (s2 ++ s3))%string.
Proof. induction s1 as [|c s1 IH]; simpl; [done|]. by rewrite IH. Qed.

Lemma string_app_length (s1 s2 : string) :
  String.length (s1 ++ s2) = (String.length s1 + String.length s2)%nat.
Proof. induction s1 as [|c s1 IH]; simpl; [done|]. by rewrite IH. Qed.

Lemma first_line_repeat_space n s :
  first_line (str_repeat " " n ++ s) = (str_repeat " " n ++ first_line s)%string.
Proof. induction n as [|n IH]; simpl; [done|]. by rewrite IH. Qed.

Lemma first_line_spaces n s :
  first_line (spaces n ++ s) = (spaces n ++ first_line s)%string.
Proof. apply first_line_repeat_space. Qed.

(** The text of a header row ends at the line break that follows it. *)
Lemma first_line_header_row a b c d rest :
  first_line (header_row a b c d ++ String newline rest) = header_row a b c d.
Proof.
  unfold header_row. rewrite !string_app_assoc. simpl.
  rewrite first_line_spaces. simpl. rewrite first_line_spaces. simpl.
  rewrite first_line_spaces. simpl. rewrite first_line_spaces. simpl.
  reflexivity.
Qed.

(** A round of the loop appends to the text built so far. *)
Lemma tab_step_appends str_complex st q acc item :
  exists r, CHState.tab_step str_complex st q acc item = (acc ++ r)%string.
Proof.
  destruct item as (i & Fr & Gr & Mr & gr & vr & sr).
  unfold CHState.tab_step.
  destruct (decide (i <> 0%nat)), (decide (i = 0%nat));
    rewrite ?string_app_assoc; eauto.
Qed.

Lemma tab_loop_appends str_complex st q items acc :
  exists r, foldl (CHState.tab_step str_complex st q) acc items = (acc ++ r)%string.
Proof.
  revert acc; induction items as [|item items IH]; intros acc; simpl.
  - exists ""%string. induction acc as [|c acc IHacc]; simpl; [done|].
    by rewrite <- IHacc.
  - destruct (tab_step_appends str_complex st q acc item) as (r & ->).
    destruct (IH (acc ++ r)%string) as (r' & ->).
    exists (r ++ r')%string. apply string_app_assoc.
Qed.

(** The header row printed by [tab]. *)
Lemma tab_first_line str_complex st :
  first_line (CHState.tab str_complex st)
  = header_row (str_len (CHState.N st) + CHState.N st / 2)
               (CHState.N st) (CHState.N st)
               (CHState.N st - CHState.N st / 2).
Proof.
  unfold CHState.tab.
  match goal with
  | |- first_line (foldl ?f ?acc ?items) = _ =>
      destruct (tab_loop_appends str_complex st
                  (Z.of_nat (String.length (str_int (CHState.N st) ++ " ")))
                  items acc) as (r & ->)
  end.
  set (n := CHState.N st).
  replace (Z.of_nat (String.length (str_int n ++ " ")) - 1 + n / 2)
    with (str_len n + n / 2)
    by (unfold str_len; rewrite string_app_length; simpl; lia).
  match goal with
  | |- first_line (?h ++ r) = _ =>
      replace (h ++ r)%string
        with (header_row (str_len n + n / 2) n n (n - n / 2)
                ++ String newline ((str_int n ++ " ") ++ r))%string
  end.
  - apply first_line_header_row.
  - unfold header_row. rewrite !string_app_assoc. simpl.
    repeat (f_equal; rewrite ?string_app_assoc; simpl).
Qed.

(** A run of blanks followed by a label determines its length. *)
Lemma str_repeat_space_inj n m c c' s s' :
  c <> " "%char -> c' <> " "%char ->
  (str_repeat " " n ++ String c s = str_repeat " " m ++ String c' s')%string ->
  n = m /\ String c s = String c' s'.
Proof.
  intros Hc Hc'. revert m; induction n as [|n IH]; intros [|m] H; simpl in *.
  - done.
  - injection H as -> _. done.
  - injection H as <- _. done.
  - injection H as H. destruct (IH m H) as [-> ?]. done.
Qed.

Lemma header_row_inj a b c d a' b' c' d' :
  0 <= a -> 0 <= b -> 0 <= c -> 0 <= d ->
  0 <= a' -> 0 <= b' -> 0 <= c' -> 0 <= d' ->
  header_row a b c d = header_row a' b' c' d' ->
  a = a' /\ b = b' /\ c = c' /\ d = d'.
Proof.
  intros Ha Hb Hc Hd Ha' Hb' Hc' Hd'. unfold header_row, spaces. simpl.
  intros H. injection H as H.
  apply str_repeat_space_inj in H as [Ea H]; [|done..]. injection H as H.
  apply str_repeat_space_inj in H as [Eb H]; [|done..]. injection H as H.
  apply str_repeat_space_inj in H as [Ec H]; [|done..]. injection H as H.
  apply str_repeat_space_inj in H as [Ed H]; [|done..].
  lia.
Qed.

Lemma header_counts_nonneg n :
  1 <= n -> 0 <= str_len n + n / 2 /\ 0 <= n - n / 2.
Proof.
  intros Hn. unfold str_len.
  assert (0 <= n / 2) by (apply Z.div_pos; lia).
  assert (n / 2 <= n) by (apply Z.div_le_upper_bound; lia).
  lia.
Qed.

(** C9, as the code has it: in the first row of [tab] exactly
    len(str(N)) + N//2 blank columns separate "N" from "F", N blank columns
    follow each of "F" and "G", and N - N//2 blank columns follow "M" before
    "g v s w". *)
Theorem tab_header_columns
    (str_complex : complex -> string) (st : CHState.t) :
  1 <= CHState.N st ->
  let n := CHState.N st in
  first_line (CHState.tab str_complex st)
  = header_row (str_len n + n / 2) n n (n - n / 2)
  /\ forall a b c d, 0 <= a -> 0 <= b -> 0 <= c -> 0 <= d ->
       first_line (CHState.tab str_complex st) = header_row a b c d ->
       a = str_len n + n / 2 /\ b = n /\ c = n /\ d = n - n / 2.
Proof.
  intros Hn. cbv zeta. split; [apply tab_first_line|].
  intros a b c d Ha Hb Hc Hd H. rewrite tab_first_line in H.
  destruct (header_counts_nonneg (CHState.N st) Hn).
  apply header_row_inj in H; lia.
Qed.

Lemma tab_header_columns_witness :
  first_line (CHState.tab (fun _ => "(1+0j)"%string) sample_x)
  = "N  F  G  M g v s w"%string.
Proof.
  apply (tab_header_columns (fun _ => "(1+0j)"%string) sample_x). simpl. lia.
Defined.

(** The count of the specification is one short: on a single qubit it
    leaves no blank between "N" and "F", and the row has one. *)
Lemma tab_header_single_qubit :
  first_line (CHState.tab (fun _ => "(1+0j)"%string) one_qubit)
  = "N F G M g v s w"%string
  /\ header_row (str_len 1 - 1 + 1 / 2) 1 1 (1 - 1 / 2)
     = "NF G M g v s w"%string
  /\ first_line (CHState.tab (fun _ => "(1+0j)"%string) one_qubit)
     <> header_row (str_len (CHState.N one_qubit) - 1 + CHState.N one_qubit / 2)
                   (CHState.N one_qubit) (CHState.N one_qubit)
                   (CHState.N one_qubit - CHState.N one_qubit / 2).
Proof. split; [reflexivity | split; [reflexivity | discriminate]]. Qed.

(** * Further properties of the code *)

(** Closes [Forall is_byte l] on a literal list. *)
Ltac forall_bytes :=
  repeat first [ apply Forall_nil_2
               | apply Forall_cons_2; [unfold is_byte; lia|] ].

(** ** Arrays are determined by their entries *)

Lemma flat_index n k : (k < n * n)%nat -> (k / n * n + k mod n)%nat = k.
Proof. intros Hk. rewrite (Nat.div_mod_eq k n) at 3. lia. Qed.

Lemma flat_index_bounds n k :
  (k < n * n)%nat -> (k / n < n)%nat /\ (k mod n < n)%nat.
Proof.
  intros Hk. assert (n <> 0)%nat by lia. split.
  - apply Nat.Div0.div_lt_upper_bound. lia.
  - by apply Nat.mod_upper_bound.
Qed.

(** An entry of a square array is the buffer read at the row-major
    position. *)
Lemma get_square n a i j :
  square n a -> (i < n)%nat -> (j < n)%nat ->
  Np.get a i j = Np.data a !! (i * n + j)%nat.
Proof.
  intros (Hr & Hc & _) Hi Hj. unfold Np.get.
  rewrite decide_True by (rewrite Hr, Hc; done). by rewrite Hc.
Qed.

Lemma array_ext n a b :
  square n a -> square n b ->
  (forall i j, (i < n)%nat -> (j < n)%nat -> Np.get a i j = Np.get b i j) ->
  a = b.
Proof.
  intros Ha Hb Hget.
  assert (Hdata : Np.data a = Np.data b).
  { apply list_eq. intros k. destruct (decide (k < n * n)%nat) as [Hk|Hk].
    - destruct (flat_index_bounds n k Hk) as [Hi Hj].
      rewrite <- (flat_index n k Hk).
      rewrite <- (get_square n a), <- (get_square n b) by done.
      by apply Hget.
    - destruct Ha as (_ & _ & Hla), Hb as (_ & _ & Hlb).
      rewrite !(proj2 (lookup_ge_None _ _)); [done|lia..]. }
  destruct a as [ra ca da], b as [rb cb db].
  destruct Ha as (Hra & Hca & _), Hb as (Hrb & Hcb & _).
  simpl in *. by subst.
Qed.

(** Every position of the buffer of a square array is an entry. *)
Lemma Forall_entries (P : Z -> Prop) n a :
  square n a ->
  (forall i j z, (i < n)%nat -> (j < n)%nat -> Np.get a i j = Some z -> P z) ->
  Forall P (Np.data a).
Proof.
  intros Ha HP. apply Forall_lookup. intros k z Hz.
  assert (Hk : (k < n * n)%nat).
  { destruct Ha as (_ & _ & <-). by apply lookup_lt_Some in Hz. }
  destruct (flat_index_bounds n k Hk) as [Hi Hj].
  apply (HP (k / n)%nat (k mod n)%nat); [done..|].
  by rewrite (get_square n), (flat_index n k Hk).
Qed.

(** ** [basis]: what the factory establishes *)

Lemma canonical_wf n bits st :
  canonical n bits st -> length bits = n -> wf n st.
Proof.
  intros [HN [HF _] [HG _] [HM _] Hg Hv Hs _] Hlen.
  unfold CHState.F, CHState.G, CHState.M, CHState.gamma in *.
  split; try done.
  - by rewrite Hg, length_replicate.
  - by rewrite Hv, length_replicate.
  - by rewrite Hs.
Qed.

Lemma identity_bits n a : is_identity n a -> Forall is_bit (Np.data a).
Proof.
  intros [Hsq Hget]. apply (Forall_entries _ n a Hsq).
  intros i j z Hi Hj Hz. rewrite Hget in Hz by done.
  injection Hz as <-. unfold is_bit. case_decide; auto.
Qed.

Lemma zero_matrix_bits n a : is_zero_matrix n a -> Forall is_bit (Np.data a).
Proof.
  intros [Hsq Hget]. apply (Forall_entries _ n a Hsq).
  intros i j z Hi Hj Hz. rewrite Hget in Hz by done.
  injection Hz as <-. by left.
Qed.

Lemma canonical_reduced n bits st :
  canonical n bits st -> (reduced st <-> Forall is_bit bits).
Proof.
  intros [HN HF HG HM Hg Hv Hs _]. split.
  - intros [_ _ _ _ _ rs]. by rewrite Hs in rs.
  - intros Hbits. split.
    + by apply (identity_bits n).
    + by apply (identity_bits n).
    + by apply (zero_matrix_bits n).
    + rewrite Hg. apply Forall_replicate. unfold is_mod4. lia.
    + rewrite Hv. apply Forall_replicate. by left.
    + by rewrite Hs.
Qed.

Lemma uint8_byte z : is_byte z -> Np.uint8 z = z.
Proof. intros Hz. unfold Np.uint8. by apply Z.mod_small. Qed.

Lemma array_u8_bytes bits : Forall is_byte bits -> Np.array_u8 bits = bits.
Proof.
  unfold Np.array_u8. induction 1 as [|z l Hz _ IH]; simpl; [done|].
  by rewrite uint8_byte, IH.
Qed.

Lemma is_bit_byte bits : Forall is_bit bits -> Forall is_byte bits.
Proof. apply Forall_impl. unfold is_bit, is_byte. lia. Qed.

(** X1: every call of the factory with a size that is not negative and a
    bitstring of 0/1 entries, each of them given or left out, returns an
    instance that satisfies the shape invariant for some size and whose
    entries are reduced. *)
Theorem basis_invariants (size : option Z) (bits : option (list Z)) :
  (forall k, size = Some k -> 0 <= k) ->
  (forall b, bits = Some b -> Forall is_bit b) ->
  exists st n, CHState.basis size bits = Ok st /\ wf n st /\ reduced st.
Proof.
  intros Hsize Hbits.
  assert (Hof : forall b, Forall is_bit b ->
            exists st n, CHState.basis None (Some b) = Ok st
                         /\ wf n st /\ reduced st).
  { intros b Hb. destruct (basis_of_bits_canonical b) as (st & Hst & Hcan).
    rewrite (array_u8_bits b Hb) in Hcan.
    exists st, (length b). split; [done|]. split.
    - by apply (canonical_wf _ b).
    - by apply (proj2 (canonical_reduced _ b st Hcan)). }
  destruct size as [k|], bits as [b|].
  - rewrite basis_truncate_or_pad by eauto.
    apply Hof. apply is_bit_truncate_or_pad. eauto.
  - destruct (basis_of_size_canonical (Z.to_nat k)) as (st & Hst & Hcan).
    rewrite Z2Nat.id in Hst by eauto.
    exists st, (Z.to_nat k). split; [done|]. split.
    + apply (canonical_wf _ _ _ Hcan). by rewrite length_replicate.
    + apply (proj2 (canonical_reduced _ _ st Hcan)). apply Forall_replicate. by left.
  - apply Hof. eauto.
  - destruct basis_default_canonical as (st & Hst & Hcan).
    exists st, 1%nat. split; [done|]. split.
    + by apply (canonical_wf _ _ _ Hcan).
    + apply (proj2 (canonical_reduced _ _ st Hcan)). forall_lia.
Qed.

Lemma basis_invariants_witness :
  exists st n, CHState.basis (Some 4) (Some [1; 0]) = Ok st
               /\ wf n st /\ reduced st.
Proof.
  apply (basis_invariants (Some 4) (Some [1; 0])).
  - intros k [= <-]. lia.
  - intros b [= <-]. forall_lia.
Defined.

(** X2: the factory does not validate the bitstring.  Given bytes of any
    value it returns an instance of the right shape that stores them as
    they are, so the result has reduced entries exactly when the input was a
    string of bits. *)
Theorem basis_stores_bytes (bits : list Z) :
  Forall is_byte bits ->
  exists st, CHState.basis None (Some bits) = Ok st
             /\ CHState.s st = bits
             /\ wf (length bits) st
             /\ (reduced st <-> Forall is_bit bits).
Proof.
  intros Hbytes. destruct (basis_of_bits_canonical bits) as (st & Hst & Hcan).
  rewrite (array_u8_bytes bits Hbytes) in Hcan.
  exists st. split; [done|]. split; [apply (can_s _ _ _ Hcan)|]. split.
  - by apply (canonical_wf _ bits).
  - by apply (canonical_reduced (length bits)).
Qed.

Lemma basis_stores_bytes_witness :
  exists st, CHState.basis None (Some [2; 1; 255]) = Ok st
             /\ CHState.s st = [2; 1; 255]
             /\ wf 3 st
             /\ (reduced st <-> Forall is_bit [2; 1; 255]).
Proof. apply (basis_stores_bytes [2; 1; 255]). forall_bytes. Defined.

Lemma slice_to_negative {T} (l : list T) n :
  n < 0 -> Np.slice_to l n = take (Z.to_nat (Z.of_nat (length l) + n)) l.
Proof.
  intros Hn. unfold Np.slice_to. destruct (Z.ltb_spec n 0); [|lia].
  f_equal. lia.
Qed.

(** X3: a negative size.  Without a bitstring the factory raises
    [ValueError]; with a bitstring s it raises nothing: the slice [s[:N]]
    drops the last |N| entries, and the instance has the len(s) - |N| qubits
    that are left (none when |N| >= len(s)). *)
Theorem basis_negative_size (n : Z) (bits : list Z) :
  n < 0 -> Forall is_bit bits ->
  CHState.basis (Some n) None = Raise ValueError
  /\ exists st,
       CHState.basis (Some n) (Some bits) = Ok st
       /\ canonical (Z.to_nat (Z.of_nat (length bits) + n))
                    (take (Z.to_nat (Z.of_nat (length bits) + n)) bits) st.
Proof.
  intros Hn Hbits. split.
  - simpl. unfold Np.eye. by destruct (Z.ltb_spec n 0); [|lia].
  - rewrite basis_both_unfold, decide_True by lia.
    rewrite (array_u8_bits bits Hbits), slice_to_negative by done.
    set (kept := take _ bits).
    destruct (basis_of_bits_canonical kept) as (st & Hst & Hcan).
    exists st. split; [done|].
    rewrite array_u8_bits in Hcan by (unfold kept; by apply Forall_take).
    replace (length kept) with (Z.to_nat (Z.of_nat (length bits) + n)) in Hcan;
      [done|].
    unfold kept. rewrite length_take. lia.
Qed.

Lemma basis_negative_size_witness :
  CHState.basis (Some (-1)) None = Raise ValueError
  /\ exists st, CHState.basis (Some (-1)) (Some [1; 0; 1]) = Ok st
                /\ canonical 2 [1; 0] st.
Proof. apply (basis_negative_size (-1) [1; 0; 1]); [lia | forall_lia]. Defined.

(** ** [__add__] and [__sub__]: algebra on operands of one size *)

(** X4: the sum of two instances of size n is an instance of size n: N and
    the shapes of all six arrays are kept.  So is the difference, which
    exists when the right phase is not zero. *)
Theorem sub_add_keep_shape (n : nat) (X Y : CHState.t) :
  wf n X -> wf n Y ->
  (exists S, CHState.add X Y = Ok S /\ wf n S)
  /\ (c_is_zero (CHState.phase Y) = false ->
      exists D, CHState.sub X Y = Ok D /\ wf n D).
Proof.
  intros HX HY. split.
  - by apply add_same_size_ok.
  - intros Hz. destruct (sub_same_size_ok n X Y HX HY Hz) as (D & HD & Hwf).
    by exists D.
Qed.

Lemma sub_add_keep_shape_witness :
  (exists S, CHState.add sample_x sample_y = Ok S /\ wf 2 S)
  /\ (exists D, CHState.sub sample_x sample_y = Ok D /\ wf 2 D).
Proof.
  destruct (sub_add_keep_shape 2 sample_x sample_y) as [Hadd Hsub];
    [by repeat split | by repeat split |].
  split; [exact Hadd | apply Hsub; reflexivity].
Defined.

Lemma add_mod_comm m x y : add_mod m x y = add_mod m y x.
Proof. unfold add_mod. f_equal. lia. Qed.

Lemma zip_add_mod_comm m (x y : list Z) :
  zip_with (add_mod m) x y = zip_with (add_mod m) y x.
Proof.
  revert y; induction x as [|a x IH]; intros [|b y]; simpl; [done..|].
  by rewrite add_mod_comm, IH.
Qed.

Lemma c_mul_comm x y : c_mul x y = c_mul y x.
Proof. destruct x as [a b], y as [c d]. unfold c_mul. simpl. f_equal; ring. Qed.

(** X5: the sum is commutative on instances of one size: X + Y and Y + X
    are the same instance, phase included. *)
Theorem add_comm (n : nat) (X Y : CHState.t) :
  wf n X -> wf n Y -> CHState.add X Y = CHState.add Y X.
Proof.
  intros HX HY. rewrite (add_same_size n X Y), (add_same_size n Y X) by done.
  rewrite (wf_N _ _ HX), (wf_N _ _ HY), (c_mul_comm (CHState.phase X)).
  rewrite (zip_add_mod_comm 2 (Np.data (CHState.A X))),
    (zip_add_mod_comm 2 (Np.data (CHState.B X))),
    (zip_add_mod_comm 2 (Np.data (CHState.C X))),
    (zip_add_mod_comm 4 (CHState.g X)),
    (zip_add_mod_comm 2 (CHState.v X)),
    (zip_add_mod_comm 2 (CHState.s X)).
  reflexivity.
Qed.

Lemma add_comm_witness :
  CHState.add sample_x sample_y = CHState.add sample_y sample_x.
Proof. apply (add_comm 2 sample_x sample_y); by repeat split. Defined.

Lemma add_mod_assoc m x y z :
  add_mod m (add_mod m x y) z = add_mod m x (add_mod m y z).
Proof.
  unfold add_mod. rewrite Zplus_mod_idemp_l, Zplus_mod_idemp_r.
  f_equal. lia.
Qed.

Lemma zip_add_mod_assoc m (x y z : list Z) :
  zip_with (add_mod m) (zip_with (add_mod m) x y) z
  = zip_with (add_mod m) x (zip_with (add_mod m) y z).
Proof.
  revert y z; induction x as [|a x IH]; intros [|b y] [|c z]; simpl; [done..|].
  by rewrite add_mod_assoc, IH.
Qed.

(** X6: the sum is associative on the arrays: for three instances of one
    size, (X + Y) + Z and X + (Y + Z) both exist and have the same N and the
    same F, G, M, gamma, v and s. *)
Theorem add_assoc_arrays (n : nat) (X Y Z : CHState.t) :
  wf n X -> wf n Y -> wf n Z ->
  exists XY YZ L R,
    CHState.add X Y = Ok XY /\ CHState.add Y Z = Ok YZ
    /\ CHState.add XY Z = Ok L /\ CHState.add X YZ = Ok R
    /\ same_arrays L R.
Proof.
  intros HX HY HZ.
  destruct (add_same_size_ok n X Y HX HY) as (XY & HXY & HwXY).
  destruct (add_same_size_ok n Y Z HY HZ) as (YZ & HYZ & HwYZ).
  exists XY, YZ. do 2 eexists.
  split; [done|]. split; [done|].
  rewrite (add_same_size n XY Z), (add_same_size n X YZ) by done.
  split; [reflexivity|]. split; [reflexivity|].
  rewrite (add_same_size n X Y) in HXY by done. injection HXY as <-.
  rewrite (add_same_size n Y Z) in HYZ by done. injection HYZ as <-.
  unfold same_arrays, CHState.F, CHState.G, CHState.M, CHState.gamma. simpl.
  by rewrite !zip_add_mod_assoc.
Qed.

Lemma add_assoc_arrays_witness :
  exists XY YZ L R,
    CHState.add sample_x sample_y = Ok XY
    /\ CHState.add sample_y two_qubits = Ok YZ
    /\ CHState.add XY two_qubits = Ok L /\ CHState.add sample_x YZ = Ok R
    /\ same_arrays L R.
Proof.
  apply (add_assoc_arrays 2 sample_x sample_y two_qubits); by repeat split.
Defined.

Lemma add_sub_mod m x y :
  0 < m -> sub_mod m (add_mod m x y) y = x mod m.
Proof.
  intros Hm. unfold add_mod, sub_mod.
  rewrite Zminus_mod_idemp_l. f_equal. lia.
Qed.

Lemma zip_add_sub m x y :
  0 < m -> length x = length y ->
  zip_with (sub_mod m) (zip_with (add_mod m) x y) y = map (fun z => z mod m) x.
Proof.
  intros Hm. revert y; induction x as [|a x IH]; intros [|b y] Hlen;
    simpl in *; try done.
  rewrite add_sub_mod by done. f_equal. apply IH. lia.
Qed.

(** X7: adding an operand and subtracting it again gives back the arrays
    of the left operand: for X with reduced entries and Y of the same size
    with a phase that is not zero, (X + Y) - Y exists and has the N, F, G, M,
    gamma, v and s of X. *)
Theorem add_sub_arrays (n : nat) (X Y : CHState.t) :
  wf n X -> wf n Y -> reduced X -> c_is_zero (CHState.phase Y) = false ->
  exists S D,
    CHState.add X Y = Ok S /\ CHState.sub S Y = Ok D /\ same_arrays D X.
Proof.
  intros HX HY [rF rG rM rg rv rs] Hz.
  destruct (add_same_size_ok n X Y HX HY) as (S & HS & HwS).
  destruct (sub_same_size_ok n S Y HwS HY Hz) as (D & HD & _).
  exists S, D. split; [done|]. split; [done|].
  rewrite (sub_same_size n S Y) in HD by done.
  destruct (c_div _ _) as [q|]; [|done]. injection HD as <-.
  rewrite (add_same_size n X Y) in HS by done. injection HS as <-.
  unfold same_arrays, CHState.F, CHState.G, CHState.M, CHState.gamma in *.
  simpl.
  pose proof (square_eta n _ (wf_A _ _ HX)) as EA.
  pose proof (square_eta n _ (wf_B _ _ HX)) as EB.
  pose proof (square_eta n _ (wf_C _ _ HX)) as EC.
  destruct HX as [HN [_ [_ HA]] [_ [_ HB]] [_ [_ HC]] Hg Hv Hs].
  destruct HY as [_ [_ [_ HA']] [_ [_ HB']] [_ [_ HC']] Hg' Hv' Hs'].
  rewrite !zip_add_sub by lia.
  rewrite !(map_mod_small 2) by by apply is_bit_range.
  rewrite (map_mod_small 4) by done.
  by rewrite EA, EB, EC.
Qed.

Lemma add_sub_arrays_witness :
  exists S D,
    CHState.add sample_x sample_y = Ok S /\ CHState.sub S sample_y = Ok D
    /\ same_arrays D sample_x.
Proof.
  apply (add_sub_arrays 2 sample_x sample_y).
  - by repeat split.
  - by repeat split.
  - split; simpl; forall_lia.
  - reflexivity.
Defined.

Lemma sub_mod_2_add x y : sub_mod 2 x y = add_mod 2 x y.
Proof.
  unfold sub_mod, add_mod.
  replace (x + y) with (x - y + y * 2) by lia.
  by rewrite Z_mod_plus_full.
Qed.

Lemma zip_sub_mod_2_add (x y : list Z) :
  zip_with (sub_mod 2) x y = zip_with (add_mod 2) x y.
Proof. apply zip_with_ext; [|done..]. intros. apply sub_mod_2_add. Qed.

(** X8: on the bit fields the difference is the sum.  For two instances of
    one size, X - Y and X + Y have the same F, G, M, v and s; they differ
    only in gamma and in the phase. *)
Theorem sub_add_same_bits (n : nat) (X Y : CHState.t) :
  wf n X -> wf n Y -> c_is_zero (CHState.phase Y) = false ->
  exists D S,
    CHState.sub X Y = Ok D /\ CHState.add X Y = Ok S
    /\ CHState.F D = CHState.F S /\ CHState.G D = CHState.G S
    /\ CHState.M D = CHState.M S
    /\ CHState.v D = CHState.v S /\ CHState.s D = CHState.s S.
Proof.
  intros HX HY Hz.
  rewrite (sub_same_size n X Y), (add_same_size n X Y) by done.
  destruct (c_div_nonzero (CHState.phase X) (CHState.phase Y) Hz) as (q & ->).
  simpl. do 2 eexists. split; [reflexivity|]. split; [reflexivity|].
  unfold CHState.F, CHState.G, CHState.M. simpl.
  by rewrite !zip_sub_mod_2_add.
Qed.

Lemma sub_add_same_bits_witness :
  exists D S,
    CHState.sub sample_x sample_y = Ok D /\ CHState.add sample_x sample_y = Ok S
    /\ CHState.F D = CHState.F S /\ CHState.G D = CHState.G S
    /\ CHState.M D = CHState.M S
    /\ CHState.v D = CHState.v S /\ CHState.s D = CHState.s S.
Proof.
  apply (sub_add_same_bits 2 sample_x sample_y);
    [by repeat split | by repeat split | reflexivity].
Defined.

Lemma zip_sub_mod_diag m (x : list Z) : all_zero (zip_with (sub_mod m) x x).
Proof.
  rewrite zip_with_diag. apply Forall_fmap, Forall_true. intros z. simpl.
  unfold sub_mod. by rewrite Z.sub_diag, Zmod_0_l.
Qed.

Lemma zip_add_mod_2_diag (x : list Z) : all_zero (zip_with (add_mod 2) x x).
Proof.
  rewrite <- zip_sub_mod_2_add. apply zip_sub_mod_diag.
Qed.

(** X9: an instance combined with itself.  X - X has nothing but zeros in
    its six arrays; X + X has nothing but zeros in F, G, M, v and s, and its
    gamma is twice the gamma of X modulo 4. *)
Theorem sub_add_self (n : nat) (X : CHState.t) :
  wf n X ->
  (c_is_zero (CHState.phase X) = false ->
   exists D, CHState.sub X X = Ok D
     /\ all_zero (Np.data (CHState.F D)) /\ all_zero (Np.data (CHState.G D))
     /\ all_zero (Np.data (CHState.M D)) /\ all_zero (CHState.gamma D)
     /\ all_zero (CHState.v D) /\ all_zero (CHState.s D))
  /\ exists S, CHState.add X X = Ok S
       /\ all_zero (Np.data (CHState.F S)) /\ all_zero (Np.data (CHState.G S))
       /\ all_zero (Np.data (CHState.M S))
       /\ CHState.gamma S = map (fun z => (2 * z) mod 4) (CHState.gamma X)
       /\ all_zero (CHState.v S) /\ all_zero (CHState.s S).
Proof.
  intros HX. split.
  - intros Hz. rewrite (sub_same_size n X X) by done.
    destruct (c_div_nonzero (CHState.phase X) (CHState.phase X) Hz) as (q & ->).
    simpl. eexists. split; [reflexivity|].
    unfold CHState.F, CHState.G, CHState.M, CHState.gamma. simpl.
    repeat split; apply zip_sub_mod_diag.
  - rewrite (add_same_size n X X) by done.
    eexists. split; [reflexivity|].
    unfold CHState.F, CHState.G, CHState.M, CHState.gamma. simpl.
    repeat split; try apply zip_add_mod_2_diag.
    rewrite zip_with_diag. apply map_ext. intros z.
    unfold add_mod. f_equal. lia.
Qed.

Lemma sub_add_self_witness :
  exists S, CHState.add sample_y sample_y = Ok S
    /\ all_zero (Np.data (CHState.F S)) /\ all_zero (Np.data (CHState.G S))
    /\ all_zero (Np.data (CHState.M S))
    /\ CHState.gamma S = map (fun z => (2 * z) mod 4) (CHState.gamma sample_y)
    /\ all_zero (CHState.v S) /\ all_zero (CHState.s S).
Proof. apply (sub_add_self 2 sample_y). by repeat split. Defined.

(** ** [__add__] with a single-qubit operand *)

Lemma tabulate_map (h : Z -> Z) r c (d : list Z) :
  length d = (r * c)%nat ->
  Np.tabulate r c (fun i j => h (d !!! (i * c + j)%nat)) = map h d.
Proof.
  intros Hd. apply list_eq. intros k.
  destruct (decide (k < r * c)%nat) as [Hk|Hk].
  - rewrite lookup_tabulate_flat by done.
    assert (Hkc : (k / c * c + k mod c = k)%nat).
    { rewrite (Nat.div_mod_eq k c) at 3. lia. }
    rewrite Hkc, list_lookup_fmap.
    by rewrite (list_lookup_lookup_total_lt d k) by lia.
  - rewrite !(proj2 (lookup_ge_None _ _)); [done| |].
    + rewrite length_map. lia.
    + rewrite length_tabulate. lia.
Qed.

Lemma seq_map (h : Z -> Z) n (d : list Z) :
  length d = n -> map (fun i => h (d !!! i)) (seq 0 n) = map h d.
Proof.
  intros Hd. apply list_eq. intros k.
  destruct (decide (k < n)%nat) as [Hk|Hk].
  - rewrite !list_lookup_fmap, lookup_seq_lt by done. simpl.
    by rewrite (list_lookup_lookup_total_lt d k) by lia.
  - rewrite !(proj2 (lookup_ge_None _ _)); [done| |].
    + rewrite length_map. lia.
    + rewrite length_map, length_seq. lia.
Qed.

Lemma bidx_stretch m i : m <> 1%nat -> Np.bidx 1 m i = 0%nat.
Proof. intros Hm. unfold Np.bidx. by rewrite decide_False by lia. Qed.

(** A 1-by-1 array on the left is read at its only entry for every
    position of the right operand. *)
Lemma binop2_stretch_left f a b m :
  square 1 a -> square m b -> m <> 1%nat ->
  Np.binop2 f a b
  = Ok (Np.Array2 m m (map (f (Np.data a !!! 0%nat)) (Np.data b))).
Proof.
  intros (Har & Hac & _) (Hbr & Hbc & Hbl) Hm. unfold Np.binop2.
  rewrite Har, Hac, Hbr, Hbc, bdim_one_l. simpl.
  do 2 f_equal. rewrite <- (tabulate_map _ m m) by done.
  unfold Np.tabulate. apply flat_map_ext. intros i. apply map_ext. intros j.
  by rewrite !bidx_stretch, !bidx_same by done.
Qed.

Lemma binop2_stretch_right f a b n :
  square n a -> square 1 b -> n <> 1%nat ->
  Np.binop2 f a b
  = Ok (Np.Array2 n n (map (fun x => f x (Np.data b !!! 0%nat)) (Np.data a))).
Proof.
  intros (Har & Hac & Hal) (Hbr & Hbc & _) Hn. unfold Np.binop2.
  rewrite Har, Hac, Hbr, Hbc, bdim_one_r. simpl.
  do 2 f_equal.
  rewrite <- (tabulate_map (fun x => f x (Np.data b !!! 0%nat)) n n) by done.
  unfold Np.tabulate. apply flat_map_ext. intros i. apply map_ext. intros j.
  by rewrite !bidx_stretch, !bidx_same by done.
Qed.

Lemma binop_stretch_left f (x y : list Z) m :
  length x = 1%nat -> length y = m -> m <> 1%nat ->
  Np.binop f x y = Ok (map (f (x !!! 0%nat)) y).
Proof.
  intros Hx Hy Hm. unfold Np.binop. rewrite Hx, Hy, bdim_one_l. simpl.
  f_equal. rewrite <- (seq_map _ m) by done.
  apply map_ext. intros i. by rewrite bidx_stretch, bidx_same by done.
Qed.

Lemma binop_stretch_right f (x y : list Z) n :
  length x = n -> length y = 1%nat -> n <> 1%nat ->
  Np.binop f x y = Ok (map (fun a => f a (y !!! 0%nat)) x).
Proof.
  intros Hx Hy Hn. unfold Np.binop. rewrite Hx, Hy, bdim_one_r. simpl.
  f_equal. rewrite <- (seq_map (fun a => f a (y !!! 0%nat)) n) by done.
  apply map_ext. intros i. by rewrite bidx_stretch, bidx_same by done.
Qed.

Lemma rem_map_add m c (y : list Z) :
  (m | 256) -> 0 < m ->
  Np.rem m (map (Np.add_u8 c) y) = map (add_mod m c) y.
Proof.
  intros Hd Hm. unfold Np.rem. rewrite map_map. apply map_ext.
  intros z. by apply rem_add_u8.
Qed.

Lemma rem_map_add_r m c (x : list Z) :
  (m | 256) -> 0 < m ->
  Np.rem m (map (fun a => Np.add_u8 a c) x) = map (fun a => add_mod m a c) x.
Proof.
  intros Hd Hm. unfold Np.rem. rewrite map_map. apply map_ext.
  intros z. by apply rem_add_u8.
Qed.

Lemma rem2_map_add k c (y : list Z) :
  Np.rem2 2 (Np.Array2 k k (map (Np.add_u8 c) y))
  = Np.Array2 k k (map (add_mod 2 c) y).
Proof.
  unfold Np.rem2. simpl. f_equal.
  apply (rem_map_add 2); [apply divide_2_256 | lia].
Qed.

Lemma rem2_map_add_r k c (x : list Z) :
  Np.rem2 2 (Np.Array2 k k (map (fun a => Np.add_u8 a c) x))
  = Np.Array2 k k (map (fun a => add_mod 2 a c) x).
Proof.
  unfold Np.rem2. simpl. f_equal.
  apply (rem_map_add_r 2); [apply divide_2_256 | lia].
Qed.

(** The sum with a single-qubit left operand, array by array. *)
Lemma add_stretch_left m X Y :
  wf 1 X -> wf m Y -> m <> 1%nat ->
  CHState.add X Y
  = Ok (CHState.mk (CHState.N X)
          (Np.Array2 m m (map (add_mod 2 (Np.data (CHState.A X) !!! 0%nat))
                              (Np.data (CHState.A Y))))
          (Np.Array2 m m (map (add_mod 2 (Np.data (CHState.B X) !!! 0%nat))
                              (Np.data (CHState.B Y))))
          (Np.Array2 m m (map (add_mod 2 (Np.data (CHState.C X) !!! 0%nat))
                              (Np.data (CHState.C Y))))
          (map (add_mod 4 (CHState.g X !!! 0%nat)) (CHState.g Y))
          (map (add_mod 2 (CHState.v X !!! 0%nat)) (CHState.v Y))
          (map (add_mod 2 (CHState.s X !!! 0%nat)) (CHState.s Y))
          (c_mul (CHState.phase X) (CHState.phase Y))).
Proof.
  intros HX HY Hm. unfold CHState.add.
  rewrite (binop2_stretch_left _ _ _ m (wf_A _ _ HX) (wf_A _ _ HY) Hm),
    (binop2_stretch_left _ _ _ m (wf_B _ _ HX) (wf_B _ _ HY) Hm),
    (binop2_stretch_left _ _ _ m (wf_C _ _ HX) (wf_C _ _ HY) Hm),
    (binop_stretch_left _ _ _ m (wf_g _ _ HX) (wf_g _ _ HY) Hm),
    (binop_stretch_left _ _ _ m (wf_v _ _ HX) (wf_v _ _ HY) Hm),
    (binop_stretch_left _ _ _ m (wf_s _ _ HX) (wf_s _ _ HY) Hm).
  rewrite !bind_Ok. cbv zeta.
  rewrite !rem2_map_add.
  rewrite (rem_map_add 4) by (apply divide_4_256 || lia).
  rewrite !(rem_map_add 2) by (apply divide_2_256 || lia).
  reflexivity.
Qed.

Lemma add_stretch_right n X Y :
  wf n X -> wf 1 Y -> n <> 1%nat ->
  CHState.add X Y
  = Ok (CHState.mk (CHState.N X)
          (Np.Array2 n n (map (fun a => add_mod 2 a (Np.data (CHState.A Y) !!! 0%nat))
                              (Np.data (CHState.A X))))
          (Np.Array2 n n (map (fun a => add_mod 2 a (Np.data (CHState.B Y) !!! 0%nat))
                              (Np.data (CHState.B X))))
          (Np.Array2 n n (map (fun a => add_mod 2 a (Np.data (CHState.C Y) !!! 0%nat))
                              (Np.data (CHState.C X))))
          (map (fun a => add_mod 4 a (CHState.g Y !!! 0%nat)) (CHState.g X))
          (map (fun a => add_mod 2 a (CHState.v Y !!! 0%nat)) (CHState.v X))
          (map (fun a => add_mod 2 a (CHState.s Y !!! 0%nat)) (CHState.s X))
          (c_mul (CHState.phase X) (CHState.phase Y))).
Proof.
  intros HX HY Hn. unfold CHState.add.
  rewrite (binop2_stretch_right _ _ _ n (wf_A _ _ HX) (wf_A _ _ HY) Hn),
    (binop2_stretch_right _ _ _ n (wf_B _ _ HX) (wf_B _ _ HY) Hn),
    (binop2_stretch_right _ _ _ n (wf_C _ _ HX) (wf_C _ _ HY) Hn),
    (binop_stretch_right _ _ _ n (wf_g _ _ HX) (wf_g _ _ HY) Hn),
    (binop_stretch_right _ _ _ n (wf_v _ _ HX) (wf_v _ _ HY) Hn),
    (binop_stretch_right _ _ _ n (wf_s _ _ HX) (wf_s _ _ HY) Hn).
  rewrite !bind_Ok. cbv zeta.
  rewrite !rem2_map_add_r.
  rewrite (rem_map_add_r 4) by (apply divide_4_256 || lia).
  rewrite !(rem_map_add_r 2) by (apply divide_2_256 || lia).
  reflexivity.
Qed.

(** X10: a single-qubit instance on the left of a sum with an instance of
    another size m.  Nothing is raised: every entry of each array of the
    right operand gets the single entry of the matching array of the left
    operand added, modulo 2 or 4.  The result carries N = 1 with arrays of
    size m, so it satisfies the shape invariant for no size. *)
Theorem add_single_qubit_left (m : nat) (X Y : CHState.t) :
  wf 1 X -> wf m Y -> m <> 1%nat ->
  exists S,
    CHState.add X Y = Ok S
    /\ CHState.N S = 1 /\ shaped m S
    /\ Np.data (CHState.F S)
       = map (add_mod 2 (Np.data (CHState.F X) !!! 0%nat)) (Np.data (CHState.F Y))
    /\ Np.data (CHState.G S)
       = map (add_mod 2 (Np.data (CHState.G X) !!! 0%nat)) (Np.data (CHState.G Y))
    /\ Np.data (CHState.M S)
       = map (add_mod 2 (Np.data (CHState.M X) !!! 0%nat)) (Np.data (CHState.M Y))
    /\ CHState.gamma S
       = map (add_mod 4 (CHState.gamma X !!! 0%nat)) (CHState.gamma Y)
    /\ CHState.v S = map (add_mod 2 (CHState.v X !!! 0%nat)) (CHState.v Y)
    /\ CHState.s S = map (add_mod 2 (CHState.s X !!! 0%nat)) (CHState.s Y)
    /\ forall k, ~ wf k S.
Proof.
  intros HX HY Hm. rewrite (add_stretch_left m X Y HX HY Hm).
  eexists. split; [reflexivity|].
  unfold CHState.F, CHState.G, CHState.M, CHState.gamma. simpl.
  destruct (wf_A _ _ HY) as (_ & _ & HlA), (wf_B _ _ HY) as (_ & _ & HlB),
    (wf_C _ _ HY) as (_ & _ & HlC).
  split; [apply (wf_N _ _ HX)|]. split.
  { split; repeat split; simpl; rewrite ?length_map;
      first [done | apply (wf_g _ _ HY) | apply (wf_v _ _ HY) | apply (wf_s _ _ HY)]. }
  repeat (split; [reflexivity|]).
  intros k [HN [Hr _] _ _ _ _ _]. simpl in *.
  rewrite (wf_N _ _ HX) in HN. lia.
Qed.

Lemma add_single_qubit_left_witness :
  exists S, CHState.add one_qubit sample_y = Ok S /\ CHState.N S = 1
            /\ shaped 2 S.
Proof.
  destruct (add_single_qubit_left 2 one_qubit sample_y) as (S & HS & HN & Hsh & _);
    [by repeat split | by repeat split | lia |].
  by exists S.
Defined.

(** X11: a single-qubit instance on the right of a sum with an instance of
    another size n.  Nothing is raised, and the result is an instance of
    size n: every entry of each array of the left operand gets the single
    entry of the matching array of the right operand added, modulo 2 or 4. *)
Theorem add_single_qubit_right (n : nat) (X Y : CHState.t) :
  wf n X -> wf 1 Y -> n <> 1%nat ->
  exists S,
    CHState.add X Y = Ok S
    /\ wf n S
    /\ Np.data (CHState.F S)
       = map (fun a => add_mod 2 a (Np.data (CHState.F Y) !!! 0%nat))
             (Np.data (CHState.F X))
    /\ Np.data (CHState.G S)
       = map (fun a => add_mod 2 a (Np.data (CHState.G Y) !!! 0%nat))
             (Np.data (CHState.G X))
    /\ Np.data (CHState.M S)
       = map (fun a => add_mod 2 a (Np.data (CHState.M Y) !!! 0%nat))
             (Np.data (CHState.M X))
    /\ CHState.gamma S
       = map (fun a => add_mod 4 a (CHState.gamma Y !!! 0%nat)) (CHState.gamma X)
    /\ CHState.v S
       = map (fun a => add_mod 2 a (CHState.v Y !!! 0%nat)) (CHState.v X)
    /\ CHState.s S
       = map (fun a => add_mod 2 a (CHState.s Y !!! 0%nat)) (CHState.s X).
Proof.
  intros HX HY Hn. rewrite (add_stretch_right n X Y HX HY Hn).
  eexists. split; [reflexivity|].
  unfold CHState.F, CHState.G, CHState.M, CHState.gamma. simpl.
  destruct (wf_A _ _ HX) as (_ & _ & HlA), (wf_B _ _ HX) as (_ & _ & HlB),
    (wf_C _ _ HX) as (_ & _ & HlC).
  split; [|by repeat split].
  split; repeat split; simpl; rewrite ?length_map;
    first [done | apply (wf_N _ _ HX) | apply (wf_g _ _ HX)
          | apply (wf_v _ _ HX) | apply (wf_s _ _ HX)].
Qed.

Lemma add_single_qubit_right_witness :
  exists S, CHState.add sample_y one_qubit = Ok S /\ wf 2 S.
Proof.
  destruct (add_single_qubit_right 2 sample_y one_qubit) as (S & HS & Hwf & _);
    [by repeat split | by repeat split | lia |].
  by exists S.
Defined.

(** ** [delete_qubit]: invariants and composition *)

Lemma Forall_remove_entry {T} (P : T -> Prop) k (x : list T) :
  Forall P x -> Forall P (remove_entry k x).
Proof.
  intros H. unfold remove_entry. apply Forall_app. split.
  - by apply Forall_take.
  - by apply Forall_drop.
Qed.

Lemma bump_lt n k i : (k < n)%nat -> (i < n - 1)%nat -> (bump k i < n)%nat.
Proof. intros. unfold bump. case_decide; lia. Qed.

(** The entries of a minor are entries of the array it is taken from. *)
Lemma Forall_minor (P : Z -> Prop) n k a a' :
  square n a -> (k < n)%nat -> minor n k a a' ->
  Forall P (Np.data a) -> Forall P (Np.data a').
Proof.
  intros Ha Hk [Hsq Hget] HP. apply (Forall_entries P (n - 1) a' Hsq).
  intros i j z Hi Hj Hz.
  destruct (Hget i j Hi Hj) as (z' & Hz' & Hsrc).
  assert (z' = z) as -> by congruence.
  rewrite (get_square n) in Hsrc by (done || by apply bump_lt).
  by apply (Forall_lookup_1 P (Np.data a) _ z HP Hsrc).
Qed.

(** X12: [delete_qubit] keeps the entries reduced: on an instance of size N
    whose bit fields hold bits and whose gamma holds values in 0..3, and an
    index 0 <= k < N, the result is an instance of size N - 1 with the same
    property. *)
Theorem delete_qubit_reduced (n : nat) (st : CHState.t) (k : Z) :
  wf n st -> reduced st -> 0 <= k < Z.of_nat n ->
  exists st', CHState.delete_qubit st k = Ok st'
              /\ wf (n - 1) st' /\ reduced st'.
Proof.
  intros Hwf [rF rG rM rg rv rs] Hk.
  destruct (delete_qubit_in_range n st k Hwf Hk)
    as (st' & Hst' & Hwf' & _ & HF & HG & HM & Hg & Hv & Hs & _).
  exists st'. split; [done|]. split; [done|].
  assert (Hk' : (Z.to_nat k < n)%nat) by lia.
  split.
  - by apply (Forall_minor _ n _ _ _ (wf_A _ _ Hwf) Hk' HF).
  - by apply (Forall_minor _ n _ _ _ (wf_B _ _ Hwf) Hk' HG).
  - by apply (Forall_minor _ n _ _ _ (wf_C _ _ Hwf) Hk' HM).
  - rewrite Hg. by apply Forall_remove_entry.
  - rewrite Hv. by apply Forall_remove_entry.
  - rewrite Hs. by apply Forall_remove_entry.
Qed.

Lemma delete_qubit_reduced_witness :
  exists st', CHState.delete_qubit sample_x 1 = Ok st'
              /\ wf 1 st' /\ reduced st'.
Proof.
  apply (delete_qubit_reduced 2 sample_x 1).
  - by repeat split.
  - split; simpl; forall_lia.
  - lia.
Defined.

Lemma bump_inj k i j : bump k i = bump k j -> i = j.
Proof. unfold bump. repeat case_decide; lia. Qed.

Lemma remove_entry_replicate {T} k n (x : T) :
  (k < n)%nat -> remove_entry k (replicate n x) = replicate (n - 1) x.
Proof.
  intros Hk. unfold remove_entry.
  rewrite take_replicate, drop_replicate, <- replicate_add.
  f_equal. lia.
Qed.

(** The minor of an identity matrix is the identity matrix one size down,
    and likewise for a zero matrix. *)
Lemma minor_identity n k a a' :
  (k < n)%nat -> is_identity n a -> minor n k a a' -> is_identity (n - 1) a'.
Proof.
  intros Hk [_ Hid] [Hsq Hget]. split; [done|].
  intros i j Hi Hj. destruct (Hget i j Hi Hj) as (z & -> & Hz).
  rewrite Hid in Hz by by apply bump_lt. rewrite <- Hz. f_equal.
  destruct (decide (i = j)) as [->|Hne].
  - by rewrite decide_True.
  - rewrite decide_False; [done|]. intros E. by apply bump_inj in E.
Qed.

Lemma minor_zero n k a a' :
  (k < n)%nat -> is_zero_matrix n a -> minor n k a a' -> is_zero_matrix (n - 1) a'.
Proof.
  intros Hk [_ Hz0] [Hsq Hget]. split; [done|].
  intros i j Hi Hj. destruct (Hget i j Hi Hj) as (z & -> & Hz).
  by rewrite Hz0 in Hz by by apply bump_lt.
Qed.

(** Two instances in canonical configuration for the same size and
    bitstring are one instance. *)
Lemma canonical_unique n bits st st' :
  canonical n bits st -> canonical n bits st' -> st = st'.
Proof.
  intros [HN [HFs HF] [HGs HG] [HMs HM] Hg Hv Hs Hp]
         [HN' [HFs' HF'] [HGs' HG'] [HMs' HM'] Hg' Hv' Hs' Hp'].
  unfold CHState.F, CHState.G, CHState.M, CHState.gamma in *.
  destruct st as [N0 A0 B0 C0 g0 v0 s0 p0], st' as [N1 A1 B1 C1 g1 v1 s1 p1].
  simpl in *. subst.
  f_equal; apply (array_ext n); try done; intros i j Hi Hj.
  - by rewrite HF, HF'.
  - by rewrite HG, HG'.
  - by rewrite HM, HM'.
Qed.

(** X13: deleting a qubit of a basis state gives a basis state: for a
    bitstring s of length N >= 1 and an index 0 <= k < N,
    [basis(s=s).delete_qubit(k)] is the instance [basis(s=s')] where s' is s
    without its entry k. *)
Theorem delete_qubit_basis (bits : list Z) (k : Z) :
  Forall is_bit bits -> 0 <= k < Z.of_nat (length bits) ->
  exists st st',
    CHState.basis None (Some bits) = Ok st
    /\ CHState.delete_qubit st k = Ok st'
    /\ CHState.basis None (Some (remove_entry (Z.to_nat k) bits)) = Ok st'.
Proof.
  intros Hbits Hk. set (n := length bits).
  assert (Hk' : (Z.to_nat k < n)%nat) by (unfold n; lia).
  destruct (basis_of_bits_canonical bits) as (st & Hst & Hcan).
  rewrite (array_u8_bits bits Hbits) in Hcan. fold n in Hcan.
  pose proof (canonical_wf n bits st Hcan eq_refl) as Hwf.
  destruct (delete_qubit_in_range n st k Hwf Hk)
    as (st' & Hst' & Hwf' & HN & HF & HG & HM & Hg & Hv & Hs & Hp).
  exists st, st'. split; [done|]. split; [done|].
  destruct (basis_of_bits_canonical (remove_entry (Z.to_nat k) bits))
    as (st2 & Hst2 & Hcan2).
  rewrite array_u8_bits in Hcan2 by by apply Forall_remove_entry.
  rewrite length_remove_entry in Hcan2 by done. fold n in Hcan2.
  simpl. rewrite Hst2. f_equal.
  apply (canonical_unique (n - 1) (remove_entry (Z.to_nat k) bits)); [done|].
  destruct Hcan as [cN cF cG cM cg cv cs cp]. split.
  - rewrite HN, cN. lia.
  - by apply (minor_identity n (Z.to_nat k) (CHState.F st)).
  - by apply (minor_identity n (Z.to_nat k) (CHState.G st)).
  - by apply (minor_zero n (Z.to_nat k) (CHState.M st)).
  - by rewrite Hg, cg, remove_entry_replicate.
  - by rewrite Hv, cv, remove_entry_replicate.
  - by rewrite Hs, cs.
  - by rewrite Hp, cp.
Qed.

Lemma delete_qubit_basis_witness :
  exists st st',
    CHState.basis None (Some [1; 0; 1]) = Ok st
    /\ CHState.delete_qubit st 1 = Ok st'
    /\ CHState.basis None (Some [1; 1]) = Ok st'.
Proof.
  apply (delete_qubit_basis [1; 0; 1] 1); [forall_lia | simpl; lia].
Defined.

Lemma bump_swap j k i :
  (j < k)%nat -> bump k (bump j i) = bump j (bump (k - 1) i).
Proof. intros Hjk. unfold bump. repeat case_decide; lia. Qed.

Lemma remove_entry_swap {T} j k (x : list T) :
  (j < k)%nat -> (k < length x)%nat ->
  remove_entry j (remove_entry k x) = remove_entry (k - 1) (remove_entry j x).
Proof.
  intros Hjk Hk. apply list_eq. intros i.
  rewrite !lookup_remove_entry; rewrite ?length_remove_entry; try lia.
  by rewrite bump_swap.
Qed.

(** A minor of a minor reads the original array through both removals. *)
Lemma minor_compose n k j a a1 a2 i i' :
  (k < n)%nat -> (j < n - 1)%nat ->
  minor n k a a1 -> minor (n - 1) j a1 a2 ->
  (i < n - 1 - 1)%nat -> (i' < n - 1 - 1)%nat ->
  Np.get a2 i i' = Np.get a (bump k (bump j i)) (bump k (bump j i')).
Proof.
  intros Hk Hj [_ H1] [_ H2] Hi Hi'.
  destruct (H2 i i' Hi Hi') as (z & Hz2 & Hz).
  destruct (H1 (bump j i) (bump j i')) as (z' & Hz' & Hsrc);
    [by apply bump_lt..|].
  rewrite Hz2, Hsrc. congruence.
Qed.

(** X14: deleting two qubits in either order gives the same instance: for
    indices j < k of an instance of size N, deleting k and then j is deleting
    j and then k - 1, the position qubit k has once qubit j is gone. *)
Theorem delete_qubit_commute (n : nat) (st : CHState.t) (j k : Z) :
  wf n st -> 0 <= j < k -> k < Z.of_nat n ->
  exists st_k st_j st',
    CHState.delete_qubit st k = Ok st_k
    /\ CHState.delete_qubit st_k j = Ok st'
    /\ CHState.delete_qubit st j = Ok st_j
    /\ CHState.delete_qubit st_j (k - 1) = Ok st'.
Proof.
  intros Hwf Hj Hk.
  destruct (delete_qubit_in_range n st k Hwf)
    as (sk & Hsk & Hwk & HNk & HFk & HGk & HMk & Hgk & Hvk & Hssk & Hpk); [lia|].
  destruct (delete_qubit_in_range (n - 1) sk j Hwk)
    as (s1 & Hs1 & Hw1 & HN1 & HF1 & HG1 & HM1 & Hg1 & Hv1 & Hss1 & Hp1); [lia|].
  destruct (delete_qubit_in_range n st j Hwf)
    as (sj & Hsj & Hwj & HNj & HFj & HGj & HMj & Hgj & Hvj & Hssj & Hpj); [lia|].
  destruct (delete_qubit_in_range (n - 1) sj (k - 1) Hwj)
    as (s2 & Hs2 & Hw2 & HN2 & HF2 & HG2 & HM2 & Hg2 & Hv2 & Hss2 & Hp2); [lia|].
  exists sk, sj, s1. split; [done|]. split; [done|]. split; [done|].
  rewrite Hs2. f_equal.
  assert (Hjk : (Z.to_nat j < Z.to_nat k)%nat) by lia.
  assert (Hkn : (Z.to_nat k < n)%nat) by lia.
  assert (Hjn : (Z.to_nat j < n)%nat) by lia.
  assert (Hjn1 : (Z.to_nat j < n - 1)%nat) by lia.
  assert (Hkn1 : (Z.to_nat k - 1 < n - 1)%nat) by lia.
  replace (Z.to_nat (k - 1)) with (Z.to_nat k - 1)%nat in * by lia.
  unfold CHState.F, CHState.G, CHState.M, CHState.gamma in *.
  assert (EA : CHState.A s2 = CHState.A s1).
  { apply (array_ext (n - 1 - 1)); [apply (wf_A _ _ Hw2) | apply (wf_A _ _ Hw1) |].
    intros i i' Hi Hi'.
    rewrite (minor_compose n _ _ _ _ _ i i' Hkn Hjn1 HFk HF1 Hi Hi').
    rewrite (minor_compose n _ _ _ _ _ i i' Hjn Hkn1 HFj HF2 Hi Hi').
    by rewrite !(bump_swap (Z.to_nat j) (Z.to_nat k)). }
  assert (EB : CHState.B s2 = CHState.B s1).
  { apply (array_ext (n - 1 - 1)); [apply (wf_B _ _ Hw2) | apply (wf_B _ _ Hw1) |].
    intros i i' Hi Hi'.
    rewrite (minor_compose n _ _ _ _ _ i i' Hkn Hjn1 HGk HG1 Hi Hi').
    rewrite (minor_compose n _ _ _ _ _ i i' Hjn Hkn1 HGj HG2 Hi Hi').
    by rewrite !(bump_swap (Z.to_nat j) (Z.to_nat k)). }
  assert (EC : CHState.C s2 = CHState.C s1).
  { apply (array_ext (n - 1 - 1)); [apply (wf_C _ _ Hw2) | apply (wf_C _ _ Hw1) |].
    intros i i' Hi Hi'.
    rewrite (minor_compose n _ _ _ _ _ i i' Hkn Hjn1 HMk HM1 Hi Hi').
    rewrite (minor_compose n _ _ _ _ _ i i' Hjn Hkn1 HMj HM2 Hi Hi').
    by rewrite !(bump_swap (Z.to_nat j) (Z.to_nat k)). }
  assert (Eg : CHState.g s2 = CHState.g s1).
  { rewrite Hg2, Hgj, Hg1, Hgk.
    symmetry. apply remove_entry_swap; [done|]. by rewrite (wf_g _ _ Hwf). }
  assert (Ev : CHState.v s2 = CHState.v s1).
  { rewrite Hv2, Hvj, Hv1, Hvk.
    symmetry. apply remove_entry_swap; [done|]. by rewrite (wf_v _ _ Hwf). }
  assert (Es : CHState.s s2 = CHState.s s1).
  { rewrite Hss2, Hssj, Hss1, Hssk.
    symmetry. apply remove_entry_swap; [done|]. by rewrite (wf_s _ _ Hwf). }
  assert (EN : CHState.N s2 = CHState.N s1) by lia.
  assert (Ep : CHState.phase s2 = CHState.phase s1) by congruence.
  destruct s1, s2. simpl in *. congruence.
Qed.

Lemma delete_qubit_commute_witness :
  exists st_k st_j st',
    CHState.delete_qubit sample_y 1 = Ok st_k
    /\ CHState.delete_qubit st_k 0 = Ok st'
    /\ CHState.delete_qubit sample_y 0 = Ok st_j
    /\ CHState.delete_qubit st_j 0 = Ok st'.
Proof.
  apply (delete_qubit_commute 2 sample_y 0 1); first [lia | by repeat split].
Defined.

Lemma getitem_mask2_mismatch {T} (a : Np.ndarray2 T) (mask : Np.ndarray2 bool) :
  Np.rows mask <> Np.rows a \/ Np.cols mask <> Np.cols a ->
  Np.getitem_mask2 a mask = Raise IndexError.
Proof.
  intros H. unfold Np.getitem_mask2. rewrite decide_False; [done|].
  intros [? ?]. destruct H; congruence.
Qed.

Lemma norm_index_error len k e :
  Np.norm_index len k = Raise e -> e = IndexError.
Proof.
  unfold Np.norm_index. intros H.
  destruct (_ && _) in H; [done|]. destruct (_ && _) in H; [done|].
  by injection H as <-.
Qed.

(** X15: [delete_qubit] on an instance that breaks the shape invariant.
    With a negative N the mask cannot be built and the call raises
    [ValueError]; with N >= 0 and an F whose shape is not N-by-N the call
    raises [IndexError], whatever the index is. *)
Theorem delete_qubit_ill_formed (st : CHState.t) (k : Z) :
  (CHState.N st < 0 -> CHState.delete_qubit st k = Raise ValueError)
  /\ (0 <= CHState.N st ->
      Np.rows (CHState.F st) <> Z.to_nat (CHState.N st)
      \/ Np.cols (CHState.F st) <> Z.to_nat (CHState.N st) ->
      CHState.delete_qubit st k = Raise IndexError).
Proof.
  split.
  - intros HN. unfold CHState.delete_qubit, Np.ones_bool.
    by destruct (Z.ltb_spec (CHState.N st) 0); [|lia].
  - intros HN Hshape. unfold CHState.delete_qubit.
    rewrite <- (Z2Nat.id (CHState.N st)) at 1 by done.
    rewrite ones_bool_nat, bind_Ok. unfold Np.setitem.
    destruct (Np.norm_index _ k) as [i|e] eqn:Hi.
    + rewrite !bind_Ok.
      rewrite (getitem_mask2_mismatch (CHState.A st)); [done|].
      unfold Np.outer. simpl. rewrite length_insert, length_replicate.
      unfold CHState.F in Hshape. destruct Hshape; [left|right]; congruence.
    + by rewrite (norm_index_error _ _ _ Hi).
Qed.

Lemma delete_qubit_ill_formed_witness :
  CHState.delete_qubit (CHState.set_F (Np.Array2 1 1 [1]) two_qubits) 0
  = Raise IndexError.
Proof.
  apply (delete_qubit_ill_formed
           (CHState.set_F (Np.Array2 1 1 [1]) two_qubits) 0).
  - simpl. lia.
  - left. simpl. lia.
Defined.

(** ** [__str__] and [tab] *)

Lemma string_app_snoc (p : string) (c : ascii) (s : string) :
  (p ++ String c s = (p ++ String c "") ++ s)%string.
Proof. by rewrite string_app_assoc. Qed.

Section RenderingFacts.
Variable str_complex : complex -> string.

(** The text [tab] starts its loop with: the header row, a line break and
    the printed qubit count. *)
Lemma tab_unfold st :
  CHState.tab str_complex st
  = foldl (CHState.tab_step str_complex st
             (Z.of_nat (String.length (str_int (CHState.N st) ++ " "))))
          (header_row (str_len (CHState.N st) + CHState.N st / 2)
                      (CHState.N st) (CHState.N st)
                      (CHState.N st - CHState.N st / 2)
           ++ String newline (str_int (CHState.N st) ++ " "))%string
          (zip (seq 0 (length (CHState.zipped_rows st))) (CHState.zipped_rows st)).
Proof.
  unfold CHState.tab. fold (CHState.zipped_rows st). f_equal.
  set (n := CHState.N st).
  replace (Z.of_nat (String.length (str_int n ++ " ")) - 1 + n / 2)
    with (str_len n + n / 2)
    by (unfold str_len; rewrite string_app_length; simpl; lia).
  unfold header_row. rewrite !string_app_assoc. simpl.
  repeat (f_equal; rewrite ?string_app_assoc; simpl).
Qed.

(** A round of the loop of [tab] does not look at the text before it. *)
Lemma tab_step_prefix st q p acc item :
  CHState.tab_step str_complex st q (p ++ acc) item
  = (p ++ CHState.tab_step str_complex st q acc item)%string.
Proof.
  destruct item as (i & Fr & Gr & Mr & gr & vr & sr).
  unfold CHState.tab_step.
  destruct (decide (i <> 0%nat)), (decide (i = 0%nat));
    by rewrite ?string_app_assoc.
Qed.

Lemma tab_loop_prefix st q p items acc :
  foldl (CHState.tab_step str_complex st q) (p ++ acc)%string items
  = (p ++ foldl (CHState.tab_step str_complex st q) acc items)%string.
Proof.
  revert acc; induction items as [|item items IH]; intros acc; simpl; [done|].
  by rewrite tab_step_prefix, IH.
Qed.

(** After round 0 the loop of [__str__] does what the loop of [tab] does. *)
Lemma str_step_later st q acc i row :
  i <> 0%nat ->
  CHState.str_step str_complex st (acc, Some q) (i, row)
  = Some (CHState.tab_step str_complex st q acc (i, row), Some q).
Proof.
  intros Hi. destruct row as (Fr & Gr & Mr & gr & vr & sr).
  by destruct i as [|i].
Qed.

Lemma str_loop_later st q items acc :
  Forall (fun item => fst item <> 0%nat) items ->
  foldl (fun state item =>
           state ≫= fun s => CHState.str_step str_complex st s item)
        (Some (acc, Some q)) items
  = Some (foldl (CHState.tab_step str_complex st q) acc items, Some q).
Proof.
  intros Hall. revert acc; induction Hall as [|[i row] items Hi _ IH];
    intros acc; [done|].
  cbn -[CHState.str_step CHState.tab_step].
  by rewrite str_step_later, IH.
Qed.

(** Round 0 of [__str__] replaces the text by the printed qubit count and
    then does what round 0 of [tab] does. *)
Lemma str_step_first st state row :
  let s0 := (str_int (CHState.N st) ++ " ")%string in
  let q := Z.of_nat (String.length s0) in
  CHState.str_step str_complex st state (0%nat, row)
  = Some (CHState.tab_step str_complex st q s0 (0%nat, row), Some q).
Proof.
  destruct state as [acc qlen], row as (Fr & Gr & Mr & gr & vr & sr).
  reflexivity.
Qed.

Lemma Forall_enumerate_from {T} start (l : list T) :
  Forall (fun item => fst item <> 0%nat) (zip (seq (S start) (length l)) l).
Proof.
  revert start; induction l as [|x l IH]; intros start; simpl;
    constructor; [simpl; lia | apply IH].
Qed.

(** The two renderings on the rows that [zip] yields. *)
Lemma str_tab_rows st :
  let header := header_row (str_len (CHState.N st) + CHState.N st / 2)
                           (CHState.N st) (CHState.N st)
                           (CHState.N st - CHState.N st / 2) in
  match CHState.zipped_rows st with
  | [] =>
      CHState.__str__ str_complex st = Some EmptyString
      /\ CHState.tab str_complex st
         = (header ++ String newline (str_int (CHState.N st) ++ " "))%string
  | _ :: _ =>
      exists body,
        CHState.__str__ str_complex st = Some body
        /\ CHState.tab str_complex st = (header ++ String newline body)%string
  end.
Proof.
  cbv zeta. rewrite tab_unfold. unfold CHState.__str__.
  destruct (CHState.zipped_rows st) as [|row rows]; [done|].
  cbn -[CHState.str_step CHState.tab_step header_row str_int String.append].
  rewrite str_step_first, str_loop_later by apply Forall_enumerate_from.
  eexists. split; [reflexivity|].
  remember (str_int (CHState.N st) ++ " ")%string as sN.
  remember (header_row _ _ _ _) as header.
  rewrite (string_app_snoc header newline sN), tab_step_prefix, tab_loop_prefix.
  by rewrite <- string_app_snoc.
Qed.

Lemma length_iter_rows {T} (a : Np.ndarray2 T) :
  length (Np.iter_rows a) = Np.rows a.
Proof. unfold Np.iter_rows. by rewrite length_map, length_seq. Qed.

Lemma length_zipped_rows n st : wf n st -> length (CHState.zipped_rows st) = n.
Proof.
  intros [_ (HA & _) (HB & _) (HC & _) Hg Hv Hs].
  unfold CHState.zipped_rows, CHState.F, CHState.G, CHState.M.
  rewrite !length_zip_with, !length_iter_rows. lia.
Qed.

End RenderingFacts.

(** X16: the two renderings of an instance of size n.  [__str__] never
    multiplies a string by the unset [qubitNumberStrLen]: it always returns
    a text.  For n >= 1, [tab] is the header row, a line break and the text
    of [__str__].  For n = 0, [__str__] is the empty text while [tab] is
    still the header row followed by the printed qubit count. *)
Theorem tab_is_header_then_str
    (str_complex : complex -> string) (n : nat) (st : CHState.t) :
  wf n st ->
  let header := header_row (str_len (CHState.N st) + CHState.N st / 2)
                           (CHState.N st) (CHState.N st)
                           (CHState.N st - CHState.N st / 2) in
  (n = 0%nat ->
   CHState.__str__ str_complex st = Some EmptyString
   /\ CHState.tab str_complex st = (header ++ String newline "0 ")%string)
  /\ ((1 <= n)%nat ->
      exists body,
        CHState.__str__ str_complex st = Some body
        /\ CHState.tab str_complex st = (header ++ String newline body)%string).
Proof.
  intros Hwf. cbv zeta.
  pose proof (str_tab_rows str_complex st) as H. cbv zeta in H.
  pose proof (length_zipped_rows n st Hwf) as Hlen.
  destruct (CHState.zipped_rows st) as [|row rows]; simpl in Hlen.
  - split; [|lia]. intros _. destruct H as [Hs Ht]. split; [done|].
    rewrite Ht, (wf_N _ _ Hwf). by subst n.
  - split; [lia|]. by intros _.
Qed.

Lemma tab_is_header_then_str_witness :
  exists body,
    CHState.__str__ (fun _ => "(1+0j)"%string) one_qubit = Some body
    /\ CHState.tab (fun _ => "(1+0j)"%string) one_qubit
       = ("N F G M g v s w" ++ String newline body)%string.
Proof.
  apply (tab_is_header_then_str (fun _ => "(1+0j)"%string) 1 one_qubit);
    [by repeat split | lia].
Defined.

Lemma string_app_nil_r (s : string) : (s ++ "")%string = s.
Proof. induction s as [|c s IH]; simpl; [done|]. by rewrite IH. Qed.

Lemma concat_empty_cons (x : string) (l : list string) :
  String.concat "" (x :: l) = (x ++ String.concat "" l)%string.
Proof. destruct l; simpl; [by rewrite string_app_nil_r | done]. Qed.

Lemma str_int_bit z :
  is_bit z -> str_int z = String (bit_char z) "".
Proof. by intros [-> | ->]. Qed.

Lemma rowToStr_bits_text (row : list Z) :
  Forall is_bit row ->
  CHState._rowToStr row = string_of_list_ascii (map bit_char row).
Proof.
  intros Hbits. unfold CHState._rowToStr.
  induction Hbits as [|z row Hz _ IH]; [done|].
  cbn [map]. by rewrite concat_empty_cons, IH, (str_int_bit z Hz).
Qed.

Lemma length_string_of_bits (row : list Z) :
  String.length (string_of_list_ascii (map bit_char row)) = length row.
Proof. induction row as [|z row IH]; simpl; [done|]. by rewrite IH. Qed.

(** X17: [_rowToStr] on a row of bits prints one character per entry, '0'
    or '1', with nothing between them: the text has the length of the
    row. *)
Theorem rowToStr_bits (row : list Z) :
  Forall is_bit row ->
  CHState._rowToStr row = string_of_list_ascii (map bit_char row)
  /\ String.length (CHState._rowToStr row) = length row.
Proof.
  intros Hbits. split; [by apply rowToStr_bits_text|].
  rewrite rowToStr_bits_text by done. apply length_string_of_bits.
Qed.

Lemma rowToStr_bits_witness :
  CHState._rowToStr [1; 0; 0; 1] = "1001"%string
  /\ String.length (CHState._rowToStr [1; 0; 0; 1]) = 4%nat.
Proof. apply (rowToStr_bits [1; 0; 0; 1]). forall_lia. Defined.

(** ** The rows of [__str__] *)

Lemma length_str_repeat c n : String.length (str_repeat c n) = n.
Proof. induction n as [|n IH]; simpl; [done|]. by rewrite IH. Qed.

Section RowLayout.
Variable str_complex : complex -> string.

(** A round after round 0 appends the blanks, the text of its row and a
    line break. *)
Lemma tab_step_later st w acc i row :
  CHState.tab_step str_complex st (Z.of_nat w) acc (S i, row)
  = (acc ++ str_repeat " " w ++ item_text row ++ String newline "")%string.
Proof.
  destruct row as (Fr & Gr & Mr & gr & vr & sr).
  unfold CHState.tab_step, spaces, item_text, CHState.row_text.
  rewrite Nat2Z.id.
  destruct (decide (S i <> 0%nat)) as [_|H]; [|lia].
  destruct (decide (S i = 0%nat)) as [H|_]; [lia|].
  by rewrite !string_app_assoc.
Qed.

(** Round 0 appends the text of its row, a blank, the phase and a line
    break. *)
Lemma tab_step_first st q acc row :
  CHState.tab_step str_complex st q acc (0%nat, row)
  = (acc ++ item_text row ++ (" " ++ str_complex (CHState.phase st))
         ++ String newline "")%string.
Proof.
  destruct row as (Fr & Gr & Mr & gr & vr & sr).
  unfold CHState.tab_step, item_text, CHState.row_text.
  destruct (decide (0%nat <> 0%nat)) as [H|_]; [lia|].
  destruct (decide (0%nat = 0%nat)) as [_|H]; [|lia].
  by rewrite !string_app_assoc.
Qed.

Lemma tab_loop_later_rows st w rows start acc :
  foldl (CHState.tab_step str_complex st (Z.of_nat w)) acc
        (zip (seq (S start) (length rows)) rows)
  = (acc ++ later_rows w (map item_text rows))%string.
Proof.
  revert start acc; induction rows as [|row rows IH]; intros start acc.
  - simpl. by rewrite string_app_nil_r.
  - cbn -[CHState.tab_step]. rewrite IH, tab_step_later.
    by rewrite !string_app_assoc.
Qed.

(** The text of [__str__], row by row. *)
Lemma str_layout st :
  CHState.__str__ str_complex st
  = Some (layout (str_int (CHState.N st) ++ " ")
                 (" " ++ str_complex (CHState.phase st))
                 (map item_text (CHState.zipped_rows st))).
Proof.
  unfold CHState.__str__.
  destruct (CHState.zipped_rows st) as [|row rows]; [done|].
  cbn -[CHState.str_step CHState.tab_step str_int String.append].
  rewrite str_step_first, str_loop_later by apply Forall_enumerate_from.
  cbn -[CHState.tab_step str_int String.append].
  rewrite tab_loop_later_rows, tab_step_first. f_equal.
  by rewrite !string_app_assoc.
Qed.

End RowLayout.

Lemma str_int_mod4 z : is_mod4 z -> String.length (str_int z) = 1%nat.
Proof.
  unfold is_mod4. intros Hz.
  assert (z = 0 \/ z = 1 \/ z = 2 \/ z = 3) as [-> | [-> | [-> | ->]]] by lia;
    done.
Qed.

Lemma str_int_bit_length z : is_bit z -> String.length (str_int z) = 1%nat.
Proof. by intros [-> | ->]. Qed.

Lemma length_row_text Fr Gr Mr gr vr sr n :
  Forall is_bit Fr -> Forall is_bit Gr -> Forall is_bit Mr ->
  length Fr = n -> length Gr = n -> length Mr = n ->
  is_mod4 gr -> is_bit vr -> is_bit sr ->
  String.length (CHState.row_text Fr Gr Mr gr vr sr) = (3 * n + 8)%nat.
Proof.
  intros HF HG HM lF lG lM Hg Hv Hs. unfold CHState.row_text.
  rewrite !string_app_length.
  rewrite !rowToStr_bits_text, !length_string_of_bits by done.
  rewrite (str_int_mod4 gr Hg), (str_int_bit_length vr Hv),
    (str_int_bit_length sr Hs).
  simpl. lia.
Qed.

(** The rows that iterating over a square array gives have its width and
    hold entries of its buffer. *)
Lemma lookup_iter_rows (P : Z -> Prop) n a i r :
  square n a -> Forall P (Np.data a) -> Np.iter_rows a !! i = Some r ->
  length r = n /\ Forall P r.
Proof.
  intros (Hr & Hc & Hl) HP Hi. unfold Np.iter_rows in Hi.
  rewrite list_lookup_fmap in Hi.
  destruct (seq 0 (Np.rows a) !! i) as [i'|] eqn:Hseq; [|done].
  apply lookup_seq in Hseq as [-> Hlt]. injection Hi as <-.
  unfold Np.row. split.
  - rewrite length_take, length_drop, Hc, Hl. rewrite Hr in Hlt. simpl. nia.
  - by apply Forall_take, Forall_drop.
Qed.

Lemma Forall_item_text_width n st :
  wf n st -> reduced st ->
  Forall (fun t => String.length t = (3 * n + 8)%nat)
         (map item_text (CHState.zipped_rows st)).
Proof.
  intros Hwf [rF rG rM rg rv rs]. apply Forall_fmap, Forall_lookup.
  intros i (Fr & Gr & Mr & gr & vr & sr) Hi. simpl.
  unfold CHState.zipped_rows in Hi.
  apply lookup_zip_Some in Hi as [HFr Hi].
  apply lookup_zip_Some in Hi as [HGr Hi].
  apply lookup_zip_Some in Hi as [HMr Hi].
  apply lookup_zip_Some in Hi as [Hgr Hi].
  apply lookup_zip_Some in Hi as [Hvr Hsr].
  destruct (lookup_iter_rows is_bit n _ i Fr (wf_A _ _ Hwf) rF HFr).
  destruct (lookup_iter_rows is_bit n _ i Gr (wf_B _ _ Hwf) rG HGr).
  destruct (lookup_iter_rows is_bit n _ i Mr (wf_C _ _ Hwf) rM HMr).
  apply length_row_text; try done.
  - by apply (Forall_lookup_1 _ _ _ _ rg Hgr).
  - by apply (Forall_lookup_1 _ _ _ _ rv Hvr).
  - by apply (Forall_lookup_1 _ _ _ _ rs Hsr).
Qed.

(** X18: the rows of [__str__] are aligned.  For an instance of size n with
    reduced entries the text is n rows, each ended by a line break: the
    first row is the printed qubit count and a blank, the text of row 0, a
    blank and the phase; every later row is as many blanks as the first row
    has before its text, and the text of its row.  The text of every row
    takes 3n + 8 columns. *)
Theorem str_rows_aligned
    (str_complex : complex -> string) (n : nat) (st : CHState.t) :
  wf n st -> reduced st ->
  exists texts,
    length texts = n
    /\ Forall (fun t => String.length t = (3 * n + 8)%nat) texts
    /\ CHState.__str__ str_complex st
       = Some (layout (str_int (CHState.N st) ++ " ")
                      (" " ++ str_complex (CHState.phase st)) texts).
Proof.
  intros Hwf Hred. exists (map item_text (CHState.zipped_rows st)).
  split; [|split].
  - rewrite length_map. by apply length_zipped_rows.
  - by apply Forall_item_text_width.
  - apply str_layout.
Qed.

Lemma str_rows_aligned_witness :
  exists texts,
    length texts = 2%nat
    /\ Forall (fun t => String.length t = 14%nat) texts
    /\ CHState.__str__ (fun _ => "1j"%string) sample_x
       = Some (layout "2 " " 1j" texts).
Proof.
  apply (str_rows_aligned (fun _ => "1j"%string) 2 sample_x).
  - by repeat split.
  - split; simpl; forall_lia.
Defined.

(** ** [delete_qubit] and [__add__] *)


Lemma remove_entry_zip_with {T} (f : T -> T -> T) k (x y : list T) :
  length x = length y ->
  remove_entry k (zip_with f x y)
  = zip_with f (remove_entry k x) (remove_entry k y).
Proof.
  intros Hlen. unfold remove_entry.
  rewrite zip_with_take, zip_with_drop, zip_with_app; [done|].
  rewrite !length_take. lia.
Qed.

(** An entry of an entrywise combination of two square arrays. *)
Lemma get_zip_with (f : Z -> Z -> Z) n a b i j :
  square n a -> square n b -> (i < n)%nat -> (j < n)%nat ->
  Np.get (Np.Array2 n n (zip_with f (Np.data a) (Np.data b))) i j
  = match Np.get a i j, Np.get b i j with
    | Some x, Some y => Some (f x y)
    | _, _ => None
    end.
Proof.
  intros Ha Hb Hi Hj.
  rewrite (get_square n a), (get_square n b) by done.
  unfold Np.get. simpl. rewrite decide_True by done.
  rewrite lookup_zip_with.
  by destruct (Np.data a !! _), (Np.data b !! _).
Qed.

(** X19: deleting a qubit commutes with the sum: for two instances of size
    N and an index 0 <= k < N, deleting qubit k from X + Y gives the sum of
    X and Y with qubit k deleted from each. *)
Theorem delete_qubit_add (n : nat) (X Y : CHState.t) (k : Z) :
  wf n X -> wf n Y -> 0 <= k < Z.of_nat n ->
  exists S S' X' Y',
    CHState.add X Y = Ok S /\ CHState.delete_qubit S k = Ok S'
    /\ CHState.delete_qubit X k = Ok X' /\ CHState.delete_qubit Y k = Ok Y'
    /\ CHState.add X' Y' = Ok S'.
Proof.
  intros HX HY Hk.
  destruct (add_same_size_ok n X Y HX HY) as (S & HS & HwS).
  destruct (delete_qubit_in_range n S k HwS Hk)
    as (S' & HS' & HwS' & HNS & HFS & HGS & HMS & HgS & HvS & HsS & HpS).
  destruct (delete_qubit_in_range n X k HX Hk)
    as (X' & HX' & HwX' & HNX & HFX & HGX & HMX & HgX & HvX & HsX & HpX).
  destruct (delete_qubit_in_range n Y k HY Hk)
    as (Y' & HY' & HwY' & HNY & HFY & HGY & HMY & HgY & HvY & HsY & HpY).
  exists S, S', X', Y'. do 4 (split; [done|]).
  rewrite (add_same_size (n - 1) X' Y') by done. f_equal.
  rewrite (add_same_size n X Y) in HS by done. injection HS as <-.
  unfold CHState.F, CHState.G, CHState.M, CHState.gamma in *. simpl in *.
  assert (Hk' : (Z.to_nat k < n)%nat) by lia.
  assert (Hmat : forall a b a' b' c',
            square n a -> square n b ->
            minor n (Z.to_nat k) a a' -> minor n (Z.to_nat k) b b' ->
            minor n (Z.to_nat k)
                  (Np.Array2 n n (zip_with (add_mod 2) (Np.data a) (Np.data b))) c' ->
            Np.Array2 (n - 1) (n - 1)
                      (zip_with (add_mod 2) (Np.data a') (Np.data b')) = c').
  { intros a b a' b' c' Ha Hb [Hsa Hga] [Hsb Hgb] [Hsc Hgc].
    apply (array_ext (n - 1)); [|done|].
    { destruct Hsa as (_ & _ & Hla), Hsb as (_ & _ & Hlb).
      repeat split; simpl. rewrite length_zip_with. lia. }
    intros i j Hi Hj.
    rewrite (get_zip_with _ (n - 1) a' b' i j Hsa Hsb Hi Hj).
    destruct (Hga i j Hi Hj) as (x & -> & Hx).
    destruct (Hgb i j Hi Hj) as (y & -> & Hy).
    destruct (Hgc i j Hi Hj) as (z & -> & Hz).
    rewrite (get_zip_with _ n a b) in Hz by (done || by apply bump_lt).
    rewrite Hx, Hy in Hz. done. }
  destruct S' as [N' A' B' C' g' v' s' p']. simpl in *.
  f_equal.
  - lia.
  - by apply (Hmat _ _ _ _ _ (wf_A _ _ HX) (wf_A _ _ HY)).
  - by apply (Hmat _ _ _ _ _ (wf_B _ _ HX) (wf_B _ _ HY)).
  - by apply (Hmat _ _ _ _ _ (wf_C _ _ HX) (wf_C _ _ HY)).
  - rewrite HgS, HgX, HgY. symmetry. apply remove_entry_zip_with.
    by rewrite (wf_g _ _ HX), (wf_g _ _ HY).
  - rewrite HvS, HvX, HvY. symmetry. apply remove_entry_zip_with.
    by rewrite (wf_v _ _ HX), (wf_v _ _ HY).
  - rewrite HsS, HsX, HsY. symmetry. apply remove_entry_zip_with.
    by rewrite (wf_s _ _ HX), (wf_s _ _ HY).
  - by rewrite HpS, HpX, HpY.
Qed.

Lemma delete_qubit_add_witness :
  exists S S' X' Y',
    CHState.add sample_x sample_y = Ok S /\ CHState.delete_qubit S 1 = Ok S'
    /\ CHState.delete_qubit sample_x 1 = Ok X'
    /\ CHState.delete_qubit sample_y 1 = Ok Y'
    /\ CHState.add X' Y' = Ok S'.
Proof.
  apply (delete_qubit_add 2 sample_x sample_y 1); first [lia | by repeat split].
Defined.
